(** * Oryol::Core::Map: a sorted key-value container over a double-ended
      element buffer (code/Core/Containers/Map.h).

    The development embeds the class template [Map<KEY,VALUE>] as pure
    functions over an explicit state record.  An operation that can hit an
    [o_assert] returns [option]: [None] stands for the contract violation
    (the program stops there), [Some] carries the state the call leaves
    behind, together with the returned value where there is one.

    [int32] quantities (capacity, spare, growth policy, indices) are carried
    as [Z].  The insertion path ([adjustCapacity], [grow]) is written over
    the mathematical integers; [adjustCapacity_int32], [grow_int32] and
    [Reserve] write the 32-bit addition and subtraction of the source out,
    wrap-around included, and the two readings are proved to agree as long
    as the sums fit 32 bits.  Positions inside the live range, which the
    source holds as pointers between [elmStart] and [elmEnd], are [nat]
    offsets from [elmStart]. *)

From Stdlib Require Import String.
From Stdlib Require Import ZArith List Bool Lia ZifyNat ZifyBool Permutation Sorted.
Import ListNotations.
Open Scope Z_scope.

Set Implicit Arguments.

(** ** Keys

    [KEY] is a template parameter: the container only uses [operator<] and
    [operator==] on it.  The laws say that [<] is a strict total order and
    that [==] is equality, which is what [std::lower_bound] and the
    duplicate handling of the map rely on. *)
Class KeyOrder (KEY : Type) := {
  key_lt : KEY -> KEY -> bool;
  key_eq : KEY -> KEY -> bool;
  key_eq_iff : forall a b, key_eq a b = true <-> a = b;
  key_lt_irrefl : forall a, key_lt a a = false;
  key_lt_trans : forall a b c,
      key_lt a b = true -> key_lt b c = true -> key_lt a c = true;
  key_lt_connex : forall a b,
      key_lt a b = false -> key_lt b a = false -> a = b
}.

(** Integer keys, used by the examples. *)
#[export] Instance ZKey : KeyOrder Z.
Proof.
  refine {| key_lt := Z.ltb; key_eq := Z.eqb |}.
  - intros a b. apply Z.eqb_eq.
  - intros a. apply Z.ltb_irrefl.
  - intros a b c H1 H2. apply Z.ltb_lt in H1, H2. apply Z.ltb_lt. lia.
  - intros a b H1 H2. apply Z.ltb_ge in H1, H2. lia.
Defined.

(** ** KeyValuePair

    Modelled from the spec: Core/Containers/KeyValuePair.h is not among the
    sources.  The pair holds one key and one value and every comparison
    looks at the key only. *)
Record KeyValuePair (KEY VALUE : Type) := mkKVP {
  key : KEY;
  value : VALUE
}.

(** The not-found sentinel.

    Modelled from the spec: Core/Types.h, which declares [InvalidIndex], is
    not among the sources; the spec only says that it is a sentinel index
    returned for "not found".  Oryol's value is -1, which is no valid
    index. *)
Definition InvalidIndex : Z := -1.

(** The clamp of the growth policy in the words of the specification,
    [min(max(x, lo), hi)]; [growBy] below is the source's own chain of
    comparisons. *)
Definition spec_clamp (x lo hi : Z) : Z := Z.min (Z.max x lo) hi.

(** ** 32-bit integers

    [int32] is a signed 32-bit integer.  [int32 z] is what a 32-bit
    addition or subtraction whose mathematical result is [z] leaves in
    the register: [z] itself when it fits, [z] wrapped around modulo
    [2^32] otherwise. *)
Definition INT32_MAX : Z := 2147483647.
Definition INT32_MIN : Z := -2147483648.
Definition int32 (z : Z) : Z :=
  (z + 2147483648) mod 4294967296 - 2147483648.

(** ** The element buffer *)
Module elementBuffer.
Section Buffer.
Variable T : Type.

(** Modelled from the spec: Core/Containers/elementBuffer.h is not among
    the sources.  The buffer owns [capacity] slots; the live range starts
    [frontSpare] slots from the base and holds [elems]. *)
Record t := mk {
  capacity : Z;
  frontSpare : Z;
  elems : list T
}.

Definition size (b : t) : Z := Z.of_nat (length (elems b)).

Definition backSpare (b : t) : Z := capacity b - frontSpare b - size b.

Definition spare (b : t) : Z := frontSpare b + backSpare b.

(** Modelled from the spec: a buffer that owns no storage. *)
Definition empty : t := mk 0 0 [].

(** Modelled from the spec: the invariant of section 3,
    [0 <= frontSpare], [0 <= backSpare] and
    [frontSpare + backSpare + size = capacity] (the last one holds by the
    definition of [backSpare]). *)
Definition wf (b : t) : Prop := 0 <= frontSpare b /\ 0 <= backSpare b.

(** Modelled from the spec: [allocate(capacity, frontOffset)] replaces the
    storage, keeps the live elements and puts the start of the live range
    [frontOffset] slots from the base; a negative offset or one beyond the
    capacity is a contract violation. *)
Definition alloc (newCapacity newStartOffset : Z) (b : t) : option t :=
  if (newStartOffset <? 0) || (newCapacity <? newStartOffset) then None
  else Some (mk newCapacity newStartOffset (elems b)).

(** Modelled from the spec: [insertAt(index, element)] with
    [0 <= index <= size].  The side with fewer elements to move is
    shifted when it has spare, otherwise the other side; with no spare at
    all the call is a contract violation. *)
Definition insert (index : Z) (elm : T) (b : t) : option t :=
  if (index <? 0) || (size b <? index) then None
  else if (frontSpare b <=? 0) && (backSpare b <=? 0) then None
  else
    let n := Z.to_nat index in
    let l := firstn n (elems b) ++ elm :: skipn n (elems b) in
    let movesFront := index in
    let movesBack := size b - index in
    if (0 <? frontSpare b) && ((backSpare b <=? 0) || (movesFront <? movesBack))
    then Some (mk (capacity b) (frontSpare b - 1) l)
    else Some (mk (capacity b) (frontSpare b) l).

(** Modelled from the spec: [eraseAt(index)] removes one element and
    closes the gap from the shorter side; an index outside the live range
    is a contract violation. *)
Definition erase (index : Z) (b : t) : option t :=
  if (index <? 0) || (size b <=? index) then None
  else
    let n := Z.to_nat index in
    let l := firstn n (elems b) ++ skipn (S n) (elems b) in
    let movesFront := index in
    let movesBack := size b - index - 1 in
    if movesFront <? movesBack
    then Some (mk (capacity b) (frontSpare b + 1) l)
    else Some (mk (capacity b) (frontSpare b) l).

(** Modelled from the spec: indexed element access has no bounds check,
    the bounds are the caller's contract; [None] is an access outside the
    live range. *)
Definition at_ (index : Z) (b : t) : option T :=
  if index <? 0 then None else nth_error (elems b) (Z.to_nat index).

(** Modelled from the spec: destruction releases the storage and resets
    the range to empty. *)
Definition destroy (b : t) : t := empty.

(** Modelled from the spec: [clear()] drops the live elements, keeps the
    capacity and puts the empty range at the mid-point. *)
Definition clear (b : t) : t := mk (capacity b) (Z.shiftr (capacity b) 1) [].

(** Modelled from the spec: copying deep-copies the live elements into a
    buffer whose capacity is the size of the source. *)
Definition copy (rhs : t) : t := mk (size rhs) 0 (elems rhs).

(** Modelled from the spec: moving transfers the storage; the first
    component is the destination, the second what is left of the
    source. *)
Definition move (rhs : t) : t * t := (rhs, empty).
End Buffer.
Arguments empty {T}.
End elementBuffer.

(** ** The map *)
Section MapDef.
Context {KEY VALUE : Type} {KO : KeyOrder KEY}.

Local Abbreviation KVP := (KeyValuePair KEY VALUE).
Local Abbreviation Buffer := (elementBuffer.t KVP).

Record Map := mkMap {
  buffer : Buffer;
  minGrow : Z;
  maxGrow : Z;
  inBulkMode : bool
}.

Definition with_buffer (m : Map) (b : Buffer) : Map :=
  mkMap b (minGrow m) (maxGrow m) (inBulkMode m).

(** The live range, [buffer.elmStart .. buffer.elmEnd]. *)
Definition live (m : Map) : list KVP := elementBuffer.elems (buffer m).

(** [Map(int32 minGrow_, int32 maxGrow_)]. *)
Definition Map_new (minGrow_ maxGrow_ : Z) : Map :=
  mkMap elementBuffer.empty minGrow_ maxGrow_ false.

Definition SetAllocStrategy (minGrow_ maxGrow_ : Z) (m : Map) : Map :=
  mkMap (buffer m) minGrow_ maxGrow_ (inBulkMode m).

Definition Size (m : Map) : Z := elementBuffer.size (buffer m).
Definition Empty (m : Map) : bool := Size m =? 0.
Definition Capacity (m : Map) : Z := elementBuffer.capacity (buffer m).

(** *** The standard algorithms the map calls *)

(** [std::lower_bound(first, last, key)] as the standard library runs it:
    a bisection on the length of the remaining range, comparing
    [*middle < key]. *)
Fixpoint lower_bound_loop (fuel : nat) (l : list KVP) (k : KEY)
         (first len : nat) : nat :=
  match fuel with
  | O => first
  | S fuel' =>
      if Nat.eqb len 0 then first
      else
        let half := (len / 2)%nat in
        let middle := (first + half)%nat in
        match nth_error l middle with
        | Some e =>
            if key_lt (key e) k
            then lower_bound_loop fuel' l k (S middle) (len - half - 1)%nat
            else lower_bound_loop fuel' l k first half
        | None => first
        end
  end.

Definition lower_bound (l : list KVP) (k : KEY) : nat :=
  lower_bound_loop (length l) l k 0%nat (length l).

(** [std::binary_search]: [lower_bound], then
    [first != last && !(key < *first)]. *)
Definition binary_search (l : list KVP) (k : KEY) : bool :=
  match nth_error l (lower_bound l k) with
  | Some e => negb (key_lt k (key e))
  | None => false
  end.

(** *** Capacity *)

Definition adjustCapacity (newCapacity : Z) (m : Map) : option Map :=
  let frontSpare := Z.shiftr (newCapacity - elementBuffer.size (buffer m)) 1 in
  if frontSpare >=? 0 then
    option_map (with_buffer m)
               (elementBuffer.alloc newCapacity frontSpare (buffer m))
  else None.

(** The value of [growBy] when [grow()] reaches its assertion. *)
Definition growBy (m : Map) : Z :=
  let curCapacity := elementBuffer.capacity (buffer m) in
  let growBy := Z.shiftr curCapacity 1 in
  if growBy <? minGrow m then minGrow m
  else if growBy >? maxGrow m then maxGrow m
  else growBy.

Definition grow (m : Map) : option Map :=
  let curCapacity := elementBuffer.capacity (buffer m) in
  let growBy := growBy m in
  if growBy >? 0 then
    let newCapacity := curCapacity + growBy in
    adjustCapacity newCapacity m
  else None.

(** [if (this->buffer.spare() == 0) { this->grow(); }] *)
Definition grow_if_full (m : Map) : option Map :=
  if elementBuffer.spare (buffer m) =? 0 then grow m else Some m.

(** [adjustCapacity] and [grow] above compute [newCapacity - size] and
    [curCapacity + growBy] as mathematical integers.  The source computes
    them on [int32]; the two definitions below write the 32-bit
    subtraction and addition out.  They agree with the ones above as long
    as the results fit 32 bits ([adjustCapacity_int32_eq] and
    [grow_int32_eq] below). *)
Definition adjustCapacity_int32 (newCapacity : Z) (m : Map) : option Map :=
  let frontSpare :=
    Z.shiftr (int32 (newCapacity - elementBuffer.size (buffer m))) 1 in
  if frontSpare >=? 0 then
    option_map (with_buffer m)
               (elementBuffer.alloc newCapacity frontSpare (buffer m))
  else None.

Definition grow_int32 (m : Map) : option Map :=
  let curCapacity := elementBuffer.capacity (buffer m) in
  let growBy := growBy m in
  if growBy >? 0 then
    let newCapacity := int32 (curCapacity + growBy) in
    adjustCapacity_int32 newCapacity m
  else None.

(** [Reserve]: the sum [size + numElements] is a 32-bit addition. *)
Definition Reserve (numElements : Z) (m : Map) : option Map :=
  let newCapacity := int32 (elementBuffer.size (buffer m) + numElements) in
  if newCapacity >? elementBuffer.capacity (buffer m)
  then adjustCapacity_int32 newCapacity m
  else Some m.

Definition Trim (m : Map) : option Map :=
  let curSize := elementBuffer.size (buffer m) in
  if curSize <? elementBuffer.capacity (buffer m)
  then adjustCapacity curSize m
  else Some m.

Definition Clear (m : Map) : Map :=
  with_buffer m (elementBuffer.clear (buffer m)).

(** *** Lookup *)

Definition Contains (k : KEY) (m : Map) : option bool :=
  if inBulkMode m then None
  else Some (binary_search (live m) k).

(** [operator[](const KEY&)]: an absent key is a contract violation. *)
Definition lookup (k : KEY) (m : Map) : option VALUE :=
  if inBulkMode m then None
  else
    match nth_error (live m) (lower_bound (live m) k) with
    | Some kvp => if key_eq k (key kvp) then Some (value kvp) else None
    | None => None
    end.

Definition FindIndex (k : KEY) (m : Map) : option Z :=
  if inBulkMode m then None
  else
    let ptr := lower_bound (live m) k in
    match nth_error (live m) ptr with
    | Some e => if key_eq k (key e) then Some (Z.of_nat ptr)
                else Some InvalidIndex
    | None => Some InvalidIndex
    end.

(** The [for] loop of [FindDuplicate].  The loop makes at most
    [size - startIndex] tests of its condition, which is the [fuel]
    [FindDuplicate] gives it; [None] is an access outside the live range
    (or no fuel left). *)
Fixpoint FindDuplicate_loop (fuel : nat) (index size : Z) (b : Buffer)
  : option Z :=
  match fuel with
  | O => None
  | S fuel' =>
      if index <? size - 1 then
        match elementBuffer.at_ index b, elementBuffer.at_ (index + 1) b with
        | Some e1, Some e2 =>
            if key_eq (key e1) (key e2) then Some index
            else FindDuplicate_loop fuel' (index + 1) size b
        | _, _ => None
        end
      else Some InvalidIndex
  end.

Definition FindDuplicate (startIndex : Z) (m : Map) : option Z :=
  if inBulkMode m then None
  else
    let size := elementBuffer.size (buffer m) in
    if startIndex <? size
    then FindDuplicate_loop (Z.to_nat (size - startIndex)) startIndex size
                            (buffer m)
    else Some InvalidIndex.

Definition KeyAtIndex (index : Z) (m : Map) : option KEY :=
  option_map (@key KEY VALUE) (elementBuffer.at_ index (buffer m)).

Definition ValueAtIndex (index : Z) (m : Map) : option VALUE :=
  option_map (@value KEY VALUE) (elementBuffer.at_ index (buffer m)).

(** *** Insertion and removal in sorted order *)

Definition Insert (kvp : KVP) (m : Map) : option Map :=
  if inBulkMode m then None
  else
    match grow_if_full m with
    | None => None
    | Some m1 =>
        let index := Z.of_nat (lower_bound (live m1) (key kvp)) in
        option_map (with_buffer m1)
                   (elementBuffer.insert index kvp (buffer m1))
    end.

(** [Insert(const KEY&, const VALUE&)]. *)
Definition Insert_kv (k : KEY) (v : VALUE) (m : Map) : option Map :=
  Insert (mkKVP k v) m.

Definition InsertUnique (kvp : KVP) (m : Map) : option (bool * Map) :=
  if inBulkMode m then None
  else
    match grow_if_full m with
    | None => None
    | Some m1 =>
        let ptr := lower_bound (live m1) (key kvp) in
        let found :=
          match nth_error (live m1) ptr with
          | Some e => key_eq (key e) (key kvp)
          | None => false
          end in
        if found then Some (false, m1)
        else
          let index := Z.of_nat ptr in
          option_map (fun b => (true, with_buffer m1 b))
                     (elementBuffer.insert index kvp (buffer m1))
    end.

(** [InsertUnique(const KEY&, const VALUE&)]. *)
Definition InsertUnique_kv (k : KEY) (v : VALUE) (m : Map)
  : option (bool * Map) :=
  InsertUnique (mkKVP k v) m.

(** The [while] loop of [Erase]: as long as the element at [index] has
    the key, erase it.  Every iteration removes one element, so
    [S (length elems)] iterations always suffice; running out of [fuel]
    is reported as [None]. *)
Fixpoint Erase_loop (fuel : nat) (index : Z) (k : KEY) (b : Buffer)
  : option Buffer :=
  match fuel with
  | O => None
  | S fuel' =>
      if (index <? elementBuffer.size b)
         && match elementBuffer.at_ index b with
            | Some e => key_eq (key e) k
            | None => false
            end
      then
        match elementBuffer.erase index b with
        | Some b' => Erase_loop fuel' index k b'
        | None => None
        end
      else Some b
  end.

(** [Erase] has no assertion on the mode. *)
Definition Erase (k : KEY) (m : Map) : option Map :=
  let ptr := lower_bound (live m) k in
  if Nat.eqb ptr (length (live m)) then Some m
  else
    let index := Z.of_nat ptr in
    option_map (with_buffer m)
               (Erase_loop (S (length (live m))) index k (buffer m)).

Definition EraseIndex (index : Z) (m : Map) : option Map :=
  option_map (with_buffer m) (elementBuffer.erase index (buffer m)).

(** *** Bulk mode *)

Definition BeginBulk (m : Map) : option Map :=
  if inBulkMode m then None
  else Some (mkMap (buffer m) (minGrow m) (maxGrow m) true).

(** [InsertBulk(const KeyValuePair&)] and [InsertBulk(KeyValuePair&&)]. *)
Definition InsertBulk (kvp : KVP) (m : Map) : option Map :=
  if inBulkMode m then
    match grow_if_full m with
    | None => None
    | Some m1 =>
        let b := buffer m1 in
        if elementBuffer.frontSpare b >? elementBuffer.backSpare b
        then option_map (with_buffer m1) (elementBuffer.insert 0 kvp b)
        else option_map (with_buffer m1)
                        (elementBuffer.insert (elementBuffer.size b) kvp b)
    end
  else None.

(** [InsertBulk(const KEY&, const VALUE&)]: the body calls [Insert]. *)
Definition InsertBulk_kv (k : KEY) (v : VALUE) (m : Map) : option Map :=
  Insert (mkKVP k v) m.

(** *** Copying and moving *)

Definition destroy (m : Map) : Map :=
  mkMap (elementBuffer.destroy (buffer m)) 0 0 (inBulkMode m).

(** [this->copy(rhs)]: the new content of [this]. *)
Definition copy (rhs : Map) : Map :=
  mkMap (elementBuffer.copy (buffer rhs)) (minGrow rhs) (maxGrow rhs)
        (inBulkMode rhs).

(** [this->move(std::move(rhs))]: the new content of [this] and what is
    left in [rhs]. *)
Definition move (rhs : Map) : Map * Map :=
  let (b, rest) := elementBuffer.move (buffer rhs) in
  (mkMap b (minGrow rhs) (maxGrow rhs) (inBulkMode rhs),
   mkMap rest 0 0 false).

(** Map objects live at addresses; the assignment operators compare the
    addresses of their two operands, so they are modelled over a store of
    objects.  An address is a position in the store. *)
Definition store := list Map.

Fixpoint store_set (s : store) (a : nat) (m : Map) : store :=
  match s, a with
  | [], _ => []
  | _ :: s', O => m :: s'
  | x :: s', S a' => x :: store_set s' a' m
  end.

(** [void operator=(const Map& rhs)]. *)
Definition assign_copy (this rhs : nat) (s : store) : option store :=
  match nth_error s this with
  | None => None
  | Some self =>
      if negb (Nat.eqb rhs this) then
        let s1 := store_set s this (destroy self) in
        match nth_error s1 rhs with
        | None => None
        | Some r => Some (store_set s1 this (copy r))
        end
      else Some s
  end.

(** [void operator=(Map&& rhs)]. *)
Definition assign_move (this rhs : nat) (s : store) : option store :=
  match nth_error s this with
  | None => None
  | Some self =>
      if negb (Nat.eqb rhs this) then
        let s1 := store_set s this (destroy self) in
        match nth_error s1 rhs with
        | None => None
        | Some r =>
            let (dst, src) := move r in
            Some (store_set (store_set s1 this dst) rhs src)
        end
      else Some s
  end.

(** *** Order on the live range *)

(** [a] does not come after [b]: [!(b.key < a.key)]. *)
Definition kvp_le (a b : KVP) : Prop := key_lt (key b) (key a) = false.

(** Non-decreasing by key. *)
Definition sorted (l : list KVP) : Prop := StronglySorted kvp_le l.

(** The buffer invariant, lifted to the map. *)
Definition wf (m : Map) : Prop := elementBuffer.wf (buffer m).

(** Some element of [l] has the key [k]. *)
Definition has_key (k : KEY) (l : list KVP) : bool :=
  existsb (fun e => key_eq (key e) k) l.

(** [l] without the elements whose key is [k], the others in order. *)
Definition without_key (k : KEY) (l : list KVP) : list KVP :=
  filter (fun e => negb (key_eq (key e) k)) l.

(** [l] without its leading run of elements whose key is [k]. *)
Fixpoint drop_run (k : KEY) (l : list KVP) : list KVP :=
  match l with
  | [] => []
  | e :: l' => if key_eq (key e) k then drop_run k l' else l
  end.
End MapDef.

Arguments Map : clear implicits.
Arguments store : clear implicits.

(** ** [std::sort]

    [EndBulk] hands the live range to [std::sort], whose algorithm the
    standard leaves open (and which is not stable): all that is known of it
    is that the result is a rearrangement of the input in non-decreasing
    order.  The map is therefore parameterised by any such function. *)
Class StdSort (KEY VALUE : Type) {KO : KeyOrder KEY} := {
  std_sort : list (KeyValuePair KEY VALUE) -> list (KeyValuePair KEY VALUE);
  std_sort_perm : forall l, Permutation l (std_sort l);
  std_sort_sorted : forall l, sorted (std_sort l)
}.
Arguments StdSort KEY VALUE {KO}.

Section MapBulk.
Context {KEY VALUE : Type} {KO : KeyOrder KEY} {SO : StdSort KEY VALUE}.

Local Abbreviation KVP := (KeyValuePair KEY VALUE).

Definition EndBulk (m : Map KEY VALUE) : option (Map KEY VALUE) :=
  if inBulkMode m then
    let b := buffer m in
    Some (mkMap (elementBuffer.mk (elementBuffer.capacity b)
                                  (elementBuffer.frontSpare b)
                                  (std_sort (elementBuffer.elems b)))
                (minGrow m) (maxGrow m) false)
  else None.

(** *** Sequences of calls *)

(** Run [f] on every element of [xs] in turn, stopping at the first
    contract violation. *)
Fixpoint each {A : Type} (f : A -> Map KEY VALUE -> option (Map KEY VALUE))
         (xs : list A) (m : Map KEY VALUE) : option (Map KEY VALUE) :=
  match xs with
  | [] => Some m
  | x :: xs' =>
      match f x m with
      | Some m' => each f xs' m'
      | None => None
      end
  end.

(** [Insert(k1,v1); ...; Insert(kn,vn)]. *)
Definition insert_all (ps : list KVP) (m : Map KEY VALUE)
  : option (Map KEY VALUE) :=
  each Insert ps m.

(** [BeginBulk(); InsertBulk(kvp1); ...; InsertBulk(kvpn); EndBulk()]. *)
Definition bulk_load (ps : list KVP) (m : Map KEY VALUE)
  : option (Map KEY VALUE) :=
  match BeginBulk m with
  | None => None
  | Some m1 =>
      match each InsertBulk ps m1 with
      | None => None
      | Some m2 => EndBulk m2
      end
  end.
End MapBulk.

Section Calls.
Context {KEY VALUE : Type} {KO : KeyOrder KEY}.

(** A call of one of the three sorted-order mutators. *)
Inductive Call :=
| CallInsert (k : KEY) (v : VALUE)
| CallInsertUnique (k : KEY) (v : VALUE)
| CallErase (k : KEY).

Definition call (c : Call) (m : Map KEY VALUE) : option (Map KEY VALUE) :=
  match c with
  | CallInsert k v => Insert_kv k v m
  | CallInsertUnique k v => option_map snd (InsertUnique_kv k v m)
  | CallErase k => Erase k m
  end.

(** The states the map goes through: one per completed call, up to the
    first contract violation (after which the program has stopped). *)
Fixpoint run (cs : list Call) (m : Map KEY VALUE) : list (Map KEY VALUE) :=
  match cs with
  | [] => []
  | c :: cs' =>
      match call c m with
      | Some m' => m' :: run cs' m'
      | None => []
      end
  end.
End Calls.

Arguments Call : clear implicits.

(** ** An instance of [std::sort] for the examples: insertion sort. *)
Section InsertionSort.
Context {KEY VALUE : Type} {KO : KeyOrder KEY}.

Local Abbreviation KVP := (KeyValuePair KEY VALUE).

Fixpoint sorted_insert (x : KVP) (l : list KVP) : list KVP :=
  match l with
  | [] => [x]
  | y :: l' => if key_lt (key y) (key x) then y :: sorted_insert x l'
               else x :: l
  end.

Definition insertion_sort (l : list KVP) : list KVP :=
  fold_right sorted_insert [] l.
End InsertionSort.

(** ** Vocabulary for the properties of the remaining operations *)
Section MoreVocabulary.
Context {KEY VALUE : Type} {KO : KeyOrder KEY}.

Local Abbreviation KVP := (KeyValuePair KEY VALUE).

(** The first element of [l] whose key is [k]. *)
Definition first_with_key (k : KEY) (l : list KVP) : option KVP :=
  find (fun e => key_eq (key e) k) l.

(** The number of elements of [l] whose key is [k]. *)
Definition count_key (k : KEY) (l : list KVP) : nat :=
  length (filter (fun e => key_eq (key e) k) l).

(** The elements at the positions [j] and [j + 1] of [l] have equal
    keys. *)
Definition dup_at (l : list KVP) (j : nat) : Prop :=
  exists a b, nth_error l j = Some a /\ nth_error l (S j) = Some b /\
              key a = key b.

(** A call that is not a plain [Insert]. *)
Definition is_unique_call (c : Call KEY VALUE) : bool :=
  match c with
  | CallInsert _ _ => false
  | CallInsertUnique _ _ => true
  | CallErase _ => true
  end.
End MoreVocabulary.

(** * Properties *)

(** ** The order on keys *)
Section OrderFacts.
Context {KEY VALUE : Type} {KO : KeyOrder KEY}.

Local Abbreviation KVP := (KeyValuePair KEY VALUE).

Lemma key_eq_refl (a : KEY) : key_eq a a = true.
Proof. now apply key_eq_iff. Qed.

Lemma key_eq_neq (a b : KEY) : key_eq a b = false <-> a <> b.
Proof.
  split; intros H.
  - intros E. apply key_eq_iff in E. congruence.
  - destruct (key_eq a b) eqn:E; [apply key_eq_iff in E; contradiction | easy].
Qed.

Lemma key_eq_sym (a b : KEY) : key_eq a b = key_eq b a.
Proof.
  destruct (key_eq a b) eqn:E1, (key_eq b a) eqn:E2; try reflexivity.
  - apply key_eq_iff in E1. subst. now rewrite key_eq_refl in E2.
  - apply key_eq_iff in E2. subst. now rewrite key_eq_refl in E1.
Qed.

Lemma key_lt_asym (a b : KEY) : key_lt a b = true -> key_lt b a = false.
Proof.
  intros H. destruct (key_lt b a) eqn:E; [| reflexivity].
  pose proof (key_lt_trans _ _ _ H E) as C.
  now rewrite key_lt_irrefl in C.
Qed.

(** [a < b <= c] gives [a < c]. *)
Lemma key_lt_le_trans (a b c : KEY) :
  key_lt a b = true -> key_lt c b = false -> key_lt a c = true.
Proof.
  intros H1 H2. destruct (key_lt b c) eqn:E.
  - eapply key_lt_trans; eassumption.
  - now rewrite <- (key_lt_connex _ _ E H2).
Qed.

(** [a <= b < c] gives [a < c]. *)
Lemma key_le_lt_trans (a b c : KEY) :
  key_lt b a = false -> key_lt b c = true -> key_lt a c = true.
Proof.
  intros H1 H2. destruct (key_lt a b) eqn:E.
  - eapply key_lt_trans; eassumption.
  - now rewrite (key_lt_connex _ _ E H1).
Qed.

Lemma kvp_le_refl (a : KVP) : kvp_le a a.
Proof. apply key_lt_irrefl. Qed.

Lemma kvp_le_trans (a b c : KVP) : kvp_le a b -> kvp_le b c -> kvp_le a c.
Proof.
  unfold kvp_le. intros H1 H2.
  destruct (key_lt (key c) (key a)) eqn:E; [| reflexivity].
  pose proof (key_lt_le_trans _ _ _ E H1) as C. congruence.
Qed.

(** A key that is neither below nor above another one is that key. *)
Lemma key_eq_of_not_lt (a b : KEY) :
  key_lt a b = false -> key_lt b a = false -> key_eq a b = true.
Proof. intros H1 H2. apply key_eq_iff. now apply key_lt_connex. Qed.

Lemma key_lt_neq (a b : KEY) : key_lt a b = true -> key_eq a b = false.
Proof.
  intros H. apply key_eq_neq. intros ->. now rewrite key_lt_irrefl in H.
Qed.
End OrderFacts.

(** ** Sorted lists *)
Section SortedFacts.
Context {KEY VALUE : Type} {KO : KeyOrder KEY}.

Local Abbreviation KVP := (KeyValuePair KEY VALUE).

Lemma sorted_nil : sorted (@nil KVP).
Proof. constructor. Qed.

Lemma sorted_app (l1 l2 : list KVP) :
  sorted l1 -> sorted l2 ->
  (forall a b, In a l1 -> In b l2 -> kvp_le a b) ->
  sorted (l1 ++ l2).
Proof.
  unfold sorted. induction l1 as [| x l1 IH]; simpl; intros S1 S2 H.
  - exact S2.
  - inversion S1; subst. constructor.
    + apply IH; auto.
    + apply Forall_app. split; [assumption |].
      apply Forall_forall. intros b Hb. apply H; auto.
Qed.

Lemma sorted_app_inv (l1 l2 : list KVP) :
  sorted (l1 ++ l2) ->
  sorted l1 /\ sorted l2 /\ (forall a b, In a l1 -> In b l2 -> kvp_le a b).
Proof.
  unfold sorted. induction l1 as [| x l1 IH]; simpl; intros S.
  - repeat split; [constructor | exact S | intros a b []].
  - inversion S as [| ? ? S' F]; subst.
    destruct (IH S') as (S1 & S2 & H).
    apply Forall_app in F. destruct F as [F1 F2].
    repeat split.
    + constructor; assumption.
    + assumption.
    + intros a b [-> | Ha] Hb.
      * rewrite Forall_forall in F2. now apply F2.
      * now apply H.
Qed.

Lemma sorted_firstn (n : nat) (l : list KVP) : sorted l -> sorted (firstn n l).
Proof.
  intros S. rewrite <- (firstn_skipn n l) in S.
  now apply sorted_app_inv in S.
Qed.

Lemma sorted_skipn (n : nat) (l : list KVP) : sorted l -> sorted (skipn n l).
Proof.
  intros S. rewrite <- (firstn_skipn n l) in S.
  now apply sorted_app_inv in S.
Qed.

(** In a sorted list an earlier element is never above a later one. *)
Lemma sorted_nth_le (l : list KVP) :
  sorted l ->
  forall i j a b, (i <= j)%nat ->
    nth_error l i = Some a -> nth_error l j = Some b -> kvp_le a b.
Proof.
  unfold sorted. induction 1 as [| x l S IH F]; intros i j a b Hij Ha Hb.
  - destruct i; discriminate.
  - destruct i as [| i], j as [| j]; simpl in *.
    + injection Ha as <-. injection Hb as <-. apply kvp_le_refl.
    + injection Ha as <-. rewrite Forall_forall in F. apply F.
      eapply nth_error_In; eassumption.
    + lia.
    + apply (IH i j); auto. lia.
Qed.

End SortedFacts.

(** ** [std::lower_bound] and [std::binary_search] *)
Section LowerBoundFacts.
Context {KEY VALUE : Type} {KO : KeyOrder KEY}.

Local Abbreviation KVP := (KeyValuePair KEY VALUE).

(** The bisection never leaves the range it was given. *)
Lemma lower_bound_loop_range (fuel : nat) (l : list KVP) (k : KEY) :
  forall first len,
    (first <= lower_bound_loop fuel l k first len <= first + len)%nat.
Proof.
  induction fuel as [| fuel IH]; intros first len; cbn [lower_bound_loop];
    [lia |].
  destruct (Nat.eqb len 0) eqn:E; [lia |].
  apply Nat.eqb_neq in E.
  destruct (nth_error l (first + len / 2)%nat) as [e |]; [| lia].
  destruct (key_lt (key e) k).
  - specialize (IH (S (first + len / 2)) (len - len / 2 - 1)%nat).
    lia.
  - specialize (IH first (len / 2)%nat). lia.
Qed.

Lemma lower_bound_le_length (l : list KVP) (k : KEY) :
  (lower_bound l k <= length l)%nat.
Proof.
  unfold lower_bound.
  pose proof (lower_bound_loop_range (length l) l k 0 (length l)). lia.
Qed.

(** On a sorted range the bisection stops at the partition point of
    [fun e => e.key < k]. *)
Lemma lower_bound_loop_partition (l : list KVP) (k : KEY) :
  sorted l ->
  forall fuel first len,
    (len <= fuel)%nat -> (first + len <= length l)%nat ->
    (forall i e, (i < first)%nat -> nth_error l i = Some e ->
                 key_lt (key e) k = true) ->
    (forall i e, (first + len <= i)%nat -> nth_error l i = Some e ->
                 key_lt (key e) k = false) ->
    let r := lower_bound_loop fuel l k first len in
    (forall i e, (i < r)%nat -> nth_error l i = Some e ->
                 key_lt (key e) k = true) /\
    (forall i e, (r <= i)%nat -> nth_error l i = Some e ->
                 key_lt (key e) k = false).
Proof.
  intros Hs. induction fuel as [| fuel IH]; intros first len Hf Hl Hlo Hhi;
    cbn [lower_bound_loop].
  - assert (len = 0)%nat by lia. subst. split; [assumption |].
    intros i e Hi. apply Hhi. lia.
  - destruct (Nat.eqb len 0) eqn:E.
    + apply Nat.eqb_eq in E. subst. split; [assumption |].
      intros i e Hi. apply Hhi. lia.
    + apply Nat.eqb_neq in E.
      assert (Hh : (len / 2 < len)%nat) by lia.
      destruct (nth_error l (first + len / 2)%nat) as [e |] eqn:Hm.
      2:{ apply nth_error_None in Hm. lia. }
      destruct (key_lt (key e) k) eqn:Hlt.
      * apply IH; try lia.
        -- intros i e' Hi He'.
           assert (Hle : kvp_le e' e)
             by (eapply (sorted_nth_le Hs); [| exact He' | exact Hm]; lia).
           eapply key_le_lt_trans; eassumption.
        -- intros i e' Hi. apply Hhi. lia.
      * apply IH; try lia; [assumption |].
        intros i e' Hi He'.
        assert (Hle : kvp_le e e')
          by (eapply (sorted_nth_le Hs); [| exact Hm | exact He']; lia).
        destruct (key_lt (key e') k) eqn:C; [| reflexivity].
        pose proof (key_le_lt_trans _ _ _ Hle C). congruence.
Qed.

(** [lower_bound] on a sorted list: everything before the result is
    below the key, nothing from the result on is. *)
Lemma lower_bound_partition (l : list KVP) (k : KEY) :
  sorted l ->
  Forall (fun e => key_lt (key e) k = true) (firstn (lower_bound l k) l) /\
  Forall (fun e => key_lt (key e) k = false) (skipn (lower_bound l k) l).
Proof.
  intros Hs.
  destruct (@lower_bound_loop_partition l k Hs (length l) 0%nat (length l))
    as [Hlo Hhi].
  - lia.
  - simpl. lia.
  - intros i e Hi. lia.
  - intros i e Hi He. assert (nth_error l i <> None) by congruence.
    apply nth_error_Some in H. simpl in Hi. lia.
  - fold (lower_bound l k) in Hlo, Hhi. split; apply Forall_forall; intros e He.
    + apply In_nth_error in He. destruct He as [i Hi].
      assert (i < lower_bound l k)%nat.
      { assert (i < length (firstn (lower_bound l k) l))%nat
          by (apply nth_error_Some; congruence).
        rewrite length_firstn in H. lia. }
      rewrite nth_error_firstn in Hi.
      destruct (Nat.ltb i (lower_bound l k)) eqn:E; [| discriminate].
      eapply Hlo; eassumption.
    + apply In_nth_error in He. destruct He as [i Hi].
      rewrite nth_error_skipn in Hi.
      eapply Hhi; [| eassumption]. lia.
Qed.
End LowerBoundFacts.

(** ** The element buffer *)
Section BufferFacts.
Variable T : Type.

Local Abbreviation Buf := (elementBuffer.t T).

Lemma shiftr_1 (a : Z) : Z.shiftr a 1 = a / 2.
Proof. now rewrite Z.shiftr_div_pow2 by lia. Qed.

Lemma buffer_size_nonneg (b : Buf) : 0 <= elementBuffer.size b.
Proof. unfold elementBuffer.size. lia. Qed.

Lemma buffer_insert_inv (index : Z) (x : T) (b b' : Buf) :
  elementBuffer.insert index x b = Some b' ->
  0 <= index <= elementBuffer.size b /\
  elementBuffer.elems b' =
    firstn (Z.to_nat index) (elementBuffer.elems b)
    ++ x :: skipn (Z.to_nat index) (elementBuffer.elems b) /\
  elementBuffer.capacity b' = elementBuffer.capacity b /\
  (elementBuffer.wf b -> elementBuffer.wf b').
Proof.
  unfold elementBuffer.insert.
  destruct ((index <? 0) || (elementBuffer.size b <? index)) eqn:E1;
    [discriminate |].
  destruct ((elementBuffer.frontSpare b <=? 0)
            && (elementBuffer.backSpare b <=? 0)) eqn:E2; [discriminate |].
  assert (Hlen : forall l : list T,
             l = firstn (Z.to_nat index) (elementBuffer.elems b)
                 ++ x :: skipn (Z.to_nat index) (elementBuffer.elems b) ->
             Z.of_nat (length l) = elementBuffer.size b + 1).
  { intros l ->. rewrite length_app. simpl. rewrite length_firstn, length_skipn.
    unfold elementBuffer.size in *. lia. }
  destruct ((0 <? elementBuffer.frontSpare b)
            && ((elementBuffer.backSpare b <=? 0)
                || (index <? elementBuffer.size b - index))) eqn:E3;
    intros [= <-];
    cbn [elementBuffer.capacity elementBuffer.frontSpare elementBuffer.elems];
    (split; [lia |]); (split; [reflexivity |]); (split; [reflexivity |]);
    unfold elementBuffer.wf, elementBuffer.backSpare, elementBuffer.size;
    cbn [elementBuffer.capacity elementBuffer.frontSpare elementBuffer.elems];
    intros [W1 W2];
    rewrite (Hlen _ eq_refl);
    unfold elementBuffer.backSpare, elementBuffer.size in *; lia.
Qed.

Lemma buffer_insert_ok (index : Z) (x : T) (b : Buf) :
  elementBuffer.wf b ->
  0 <= index <= elementBuffer.size b ->
  elementBuffer.spare b <> 0 ->
  exists b', elementBuffer.insert index x b = Some b'.
Proof.
  unfold elementBuffer.wf, elementBuffer.spare, elementBuffer.insert.
  intros [W1 W2] Hi Hs.
  destruct ((index <? 0) || (elementBuffer.size b <? index)) eqn:E1; [lia |].
  destruct ((elementBuffer.frontSpare b <=? 0)
            && (elementBuffer.backSpare b <=? 0)) eqn:E2; [lia |].
  destruct ((0 <? elementBuffer.frontSpare b)
            && ((elementBuffer.backSpare b <=? 0)
                || (index <? elementBuffer.size b - index)));
    eexists; reflexivity.
Qed.

Lemma buffer_erase_inv (index : Z) (b b' : Buf) :
  elementBuffer.erase index b = Some b' ->
  0 <= index < elementBuffer.size b /\
  elementBuffer.elems b' =
    firstn (Z.to_nat index) (elementBuffer.elems b)
    ++ skipn (S (Z.to_nat index)) (elementBuffer.elems b) /\
  elementBuffer.capacity b' = elementBuffer.capacity b /\
  (elementBuffer.wf b -> elementBuffer.wf b').
Proof.
  unfold elementBuffer.erase.
  destruct ((index <? 0) || (elementBuffer.size b <=? index)) eqn:E1;
    [discriminate |].
  assert (Hlen : forall l : list T,
             l = firstn (Z.to_nat index) (elementBuffer.elems b)
                 ++ skipn (S (Z.to_nat index)) (elementBuffer.elems b) ->
             Z.of_nat (length l) = elementBuffer.size b - 1).
  { intros l ->. rewrite length_app, length_firstn, length_skipn.
    unfold elementBuffer.size in *. lia. }
  specialize (Hlen _ eq_refl).
  set (l := firstn _ _ ++ skipn _ _) in *.
  destruct (index <? elementBuffer.size b - index - 1) eqn:E2;
    intros [= <-];
    cbn [elementBuffer.capacity elementBuffer.frontSpare elementBuffer.elems];
    (split; [lia |]); (split; [reflexivity |]); (split; [reflexivity |]);
    unfold elementBuffer.wf, elementBuffer.backSpare, elementBuffer.size in *;
    cbn [elementBuffer.capacity elementBuffer.frontSpare elementBuffer.elems];
    lia.
Qed.

Lemma buffer_erase_ok (index : Z) (b : Buf) :
  0 <= index < elementBuffer.size b ->
  exists b', elementBuffer.erase index b = Some b'.
Proof.
  unfold elementBuffer.erase. intros Hi.
  destruct ((index <? 0) || (elementBuffer.size b <=? index)) eqn:E1; [lia |].
  destruct (index <? elementBuffer.size b - index - 1);
    eexists; reflexivity.
Qed.

Lemma buffer_at_nat (i : nat) (b : Buf) :
  elementBuffer.at_ (Z.of_nat i) b = nth_error (elementBuffer.elems b) i.
Proof.
  unfold elementBuffer.at_.
  destruct (Z.of_nat i <? 0) eqn:E; [lia |]. now rewrite Nat2Z.id.
Qed.

Lemma buffer_empty_wf : elementBuffer.wf (@elementBuffer.empty T).
Proof. unfold elementBuffer.wf, elementBuffer.backSpare. simpl. lia. Qed.

Lemma buffer_wf_capacity (b : Buf) :
  elementBuffer.wf b -> elementBuffer.size b <= elementBuffer.capacity b.
Proof. unfold elementBuffer.wf, elementBuffer.backSpare. lia. Qed.
End BufferFacts.

(** ** Growth *)
Section GrowFacts.
Context {KEY VALUE : Type} {KO : KeyOrder KEY}.

Local Abbreviation KVP := (KeyValuePair KEY VALUE).
Local Abbreviation M := (Map KEY VALUE).

Lemma growBy_pos (m : M) : 0 < minGrow m -> 0 < maxGrow m -> 0 < growBy m.
Proof.
  unfold growBy. intros H1 H2.
  destruct (Z.shiftr (elementBuffer.capacity (buffer m)) 1 <? minGrow m) eqn:E1;
    [assumption |].
  destruct (Z.shiftr (elementBuffer.capacity (buffer m)) 1 >? maxGrow m) eqn:E2;
    [assumption | lia].
Qed.

Lemma adjustCapacity_inv (newCapacity : Z) (m m' : M) :
  adjustCapacity newCapacity m = Some m' ->
  Size m <= newCapacity /\
  m' = with_buffer m
         (elementBuffer.mk newCapacity ((newCapacity - Size m) / 2) (live m)).
Proof.
  unfold adjustCapacity, elementBuffer.alloc, Size, live.
  rewrite shiftr_1.
  pose proof (buffer_size_nonneg (buffer m)) as Hs.
  destruct ((newCapacity - elementBuffer.size (buffer m)) / 2 >=? 0) eqn:E1;
    [| discriminate].
  destruct (((newCapacity - elementBuffer.size (buffer m)) / 2 <? 0)
            || (newCapacity <? (newCapacity - elementBuffer.size (buffer m)) / 2))
    eqn:E2; simpl; [discriminate |].
  intros [= <-]. split; [lia | reflexivity].
Qed.

Lemma adjustCapacity_ok (newCapacity : Z) (m : M) :
  Size m <= newCapacity ->
  adjustCapacity newCapacity m =
  Some (with_buffer m
          (elementBuffer.mk newCapacity ((newCapacity - Size m) / 2) (live m))).
Proof.
  unfold adjustCapacity, elementBuffer.alloc, Size, live.
  rewrite shiftr_1. intros H.
  pose proof (buffer_size_nonneg (buffer m)) as Hs.
  destruct ((newCapacity - elementBuffer.size (buffer m)) / 2 >=? 0) eqn:E1;
    [| lia].
  destruct (((newCapacity - elementBuffer.size (buffer m)) / 2 <? 0)
            || (newCapacity <? (newCapacity - elementBuffer.size (buffer m)) / 2))
    eqn:E2; [lia | reflexivity].
Qed.

(** A reallocation to at least the size leaves a well-formed buffer. *)
Lemma realloc_wf (newCapacity : Z) (m : M) :
  Size m <= newCapacity ->
  wf (with_buffer m
        (elementBuffer.mk newCapacity ((newCapacity - Size m) / 2) (live m))).
Proof.
  unfold wf, elementBuffer.wf, elementBuffer.backSpare, elementBuffer.size,
    Size, live. simpl. unfold elementBuffer.size. lia.
Qed.

Lemma grow_if_full_inv (m m1 : M) :
  grow_if_full m = Some m1 ->
  live m1 = live m /\ minGrow m1 = minGrow m /\ maxGrow m1 = maxGrow m /\
  inBulkMode m1 = inBulkMode m /\
  (elementBuffer.spare (buffer m) <> 0 -> m1 = m) /\
  (wf m -> wf m1 /\ elementBuffer.spare (buffer m1) <> 0).
Proof.
  unfold grow_if_full.
  destruct (elementBuffer.spare (buffer m) =? 0) eqn:E.
  - unfold grow. destruct (growBy m >? 0) eqn:G; [| discriminate].
    intros H. apply adjustCapacity_inv in H. destruct H as [Hle ->].
    split; [reflexivity |]. split; [reflexivity |]. split; [reflexivity |].
    split; [reflexivity |]. split; [lia |].
    intros W. split; [now apply realloc_wf |].
    unfold wf, elementBuffer.wf, elementBuffer.spare,
      elementBuffer.backSpare, Size, live, elementBuffer.size in *.
    simpl. lia.
  - intros [= <-].
    split; [reflexivity |]. split; [reflexivity |]. split; [reflexivity |].
    split; [reflexivity |]. split; [reflexivity |].
    intros W. split; [assumption | lia].
Qed.

Lemma grow_if_full_ok (m : M) :
  elementBuffer.spare (buffer m) <> 0 \/ 0 < growBy m ->
  exists m1, grow_if_full m = Some m1.
Proof.
  unfold grow_if_full. intros H.
  destruct (elementBuffer.spare (buffer m) =? 0) eqn:E; [| eauto].
  unfold grow. destruct (growBy m >? 0) eqn:G; [| lia].
  rewrite adjustCapacity_ok; [eauto |].
  unfold elementBuffer.spare, elementBuffer.backSpare, Size in *. lia.
Qed.

Lemma int32_small (z : Z) : INT32_MIN <= z <= INT32_MAX -> int32 z = z.
Proof. unfold int32, INT32_MIN, INT32_MAX. intros H. lia. Qed.

Lemma int32_range (z : Z) : INT32_MIN <= int32 z <= INT32_MAX.
Proof. unfold int32, INT32_MIN, INT32_MAX. lia. Qed.

(** A sum just beyond the 32-bit range wraps to a negative number. *)
Lemma int32_wraps (z : Z) :
  INT32_MAX < z <= 2 * INT32_MAX -> int32 z = z - 4294967296 /\ int32 z < 0.
Proof. unfold int32, INT32_MIN, INT32_MAX. intros H. lia. Qed.

Lemma adjustCapacity_int32_eq (newCapacity : Z) (m : M) :
  INT32_MIN <= newCapacity - Size m <= INT32_MAX ->
  adjustCapacity_int32 newCapacity m = adjustCapacity newCapacity m.
Proof.
  intros H. unfold adjustCapacity_int32, adjustCapacity.
  fold (Size m). now rewrite int32_small.
Qed.


(** While [capacity + growBy] fits 32 bits, the 32-bit [grow()] is the
    [grow()] on mathematical integers. *)
Lemma grow_int32_eq (m : M) :
  wf m -> Capacity m + growBy m <= INT32_MAX ->
  grow_int32 m = grow m.
Proof.
  intros W Hb. unfold grow_int32, grow.
  destruct (growBy m >? 0) eqn:G; [| reflexivity].
  pose proof (buffer_wf_capacity W) as Hc.
  pose proof (buffer_size_nonneg (buffer m)) as Hs.
  unfold Capacity in Hb.
  rewrite int32_small by (unfold INT32_MIN, INT32_MAX in *; lia).
  apply adjustCapacity_int32_eq.
  unfold Size, INT32_MIN, INT32_MAX in *. lia.
Qed.

(** [Reserve] makes room for [numElements] more elements and keeps the
    live range, when [size + numElements] fits 32 bits. *)
Lemma Reserve_spec (numElements : Z) (m : M) :
  wf m -> INT32_MIN <= numElements -> Size m + numElements <= INT32_MAX ->
  exists m',
    Reserve numElements m = Some m' /\
    Capacity m' = Z.max (Capacity m) (Size m + numElements) /\
    Size m' + numElements <= Capacity m' /\
    live m' = live m /\ wf m' /\
    inBulkMode m' = inBulkMode m /\
    minGrow m' = minGrow m /\ maxGrow m' = maxGrow m.
Proof.
  intros W Hn Hb. unfold Reserve. pose proof (buffer_wf_capacity W) as Hc.
  pose proof (buffer_size_nonneg (buffer m)) as Hs. unfold Size in Hb.
  rewrite int32_small by (unfold INT32_MIN, INT32_MAX in *; lia).
  destruct (elementBuffer.size (buffer m) + numElements
            >? elementBuffer.capacity (buffer m)) eqn:E.
  - rewrite adjustCapacity_int32_eq
      by (unfold Size, INT32_MIN, INT32_MAX in *; lia).
    rewrite adjustCapacity_ok by (unfold Size; lia).
    eexists. split; [reflexivity |].
    split; [unfold Size, Capacity; simpl; lia |].
    split; [| split; [reflexivity |
                      split; [apply realloc_wf; unfold Size; lia |]]].
    + unfold Size, Capacity, live, elementBuffer.size. simpl. lia.
    + simpl. auto.
  - exists m. unfold Size, Capacity. split; [reflexivity |]. split; [lia |].
    split; [lia |].
    split; [reflexivity |]. split; [assumption |]. auto.
Qed.

(** When [size + numElements] exceeds the 32-bit range the sum wraps to a
    negative number, which is not above the capacity: [Reserve] then
    leaves the map as it is. *)
Lemma Reserve_int32_overflow (numElements : Z) (m : M) :
  wf m -> Size m <= INT32_MAX -> numElements <= INT32_MAX ->
  INT32_MAX < Size m + numElements ->
  Reserve numElements m = Some m.
Proof.
  intros W Hs Hn Ho. unfold Reserve.
  pose proof (buffer_wf_capacity W) as Hc.
  pose proof (buffer_size_nonneg (buffer m)) as Hs0. unfold Size in *.
  destruct (@int32_wraps (elementBuffer.size (buffer m) + numElements))
    as [_ Hneg]; [unfold INT32_MAX in *; lia |].
  destruct (int32 (elementBuffer.size (buffer m) + numElements)
            >? elementBuffer.capacity (buffer m)) eqn:E; [lia | reflexivity].
Qed.

Lemma Map_new_wf (minGrow_ maxGrow_ : Z) :
  wf (Map_new minGrow_ maxGrow_ : M).
Proof. apply buffer_empty_wf. Qed.
End GrowFacts.

(** ** Insertion *)
Section InsertFacts.
Context {KEY VALUE : Type} {KO : KeyOrder KEY}.

Local Abbreviation KVP := (KeyValuePair KEY VALUE).
Local Abbreviation M := (Map KEY VALUE).

(** Inserting at the lower bound keeps a sorted list sorted. *)
Lemma sorted_insert_at_lower_bound (x : KVP) (l : list KVP) :
  sorted l ->
  sorted (firstn (lower_bound l (key x)) l
          ++ x :: skipn (lower_bound l (key x)) l).
Proof.
  intros Hs.
  destruct (lower_bound_partition (key x) Hs) as [Hlo Hhi].
  pose proof Hs as Hs'. rewrite <- (firstn_skipn (lower_bound l (key x)) l) in Hs'.
  apply sorted_app_inv in Hs'. destruct Hs' as (S1 & S2 & H12).
  rewrite Forall_forall in Hlo, Hhi.
  apply sorted_app; [assumption | |].
  - constructor; [assumption |]. apply Forall_forall. intros e He.
    apply Hhi. assumption.
  - intros a b Ha [<- | Hb].
    + apply key_lt_asym. now apply Hlo.
    + now apply H12.
Qed.

(** The partition point of a sorted list is unique. *)
Lemma lower_bound_unique (k : KEY) (before after : list KVP) :
  sorted (before ++ after) ->
  Forall (fun e => key_lt (key e) k = true) before ->
  Forall (fun e => key_lt (key e) k = false) after ->
  lower_bound (before ++ after) k = length before.
Proof.
  intros Hs Hb Ha.
  destruct (lower_bound_partition k Hs) as [Hlo Hhi].
  set (r := lower_bound (before ++ after) k) in *.
  rewrite Forall_forall in *.
  destruct (Nat.lt_trichotomy r (length before)) as [Hlt | [Heq | Hgt]];
    [| assumption |].
  - destruct (nth_error before r) as [e |] eqn:E.
    2:{ apply nth_error_None in E. lia. }
    assert (In e (skipn r (before ++ after))).
    { apply (nth_error_In _ 0). rewrite nth_error_skipn, Nat.add_0_r.
      now rewrite nth_error_app1 by lia. }
    pose proof (Hhi _ H). pose proof (Hb _ (nth_error_In _ _ E)). congruence.
  - destruct (nth_error after 0) as [e |] eqn:E.
    2:{ apply nth_error_None in E.
        pose proof (lower_bound_le_length (before ++ after) k) as Hr.
        fold r in Hr. rewrite length_app in Hr. lia. }
    assert (In e (firstn r (before ++ after))).
    { apply (nth_error_In _ (length before)).
      rewrite nth_error_firstn.
      destruct (Nat.ltb_spec (length before) r); [| lia].
      rewrite nth_error_app2 by lia. now rewrite Nat.sub_diag. }
    pose proof (Hlo _ H). pose proof (Ha _ (nth_error_In _ _ E)). congruence.
Qed.

(** What [buffer.insert] does at a position of the live range. *)
Lemma insert_at_ok (m1 : M) (i : nat) (kvp : KVP) :
  wf m1 -> elementBuffer.spare (buffer m1) <> 0 ->
  (i <= length (live m1))%nat ->
  exists b', elementBuffer.insert (Z.of_nat i) kvp (buffer m1) = Some b'.
Proof.
  intros W Hsp Hi. apply buffer_insert_ok; auto.
  unfold elementBuffer.size, live in *. lia.
Qed.

Lemma insert_at_inv (m1 : M) (i : nat) (kvp : KVP) b' :
  elementBuffer.insert (Z.of_nat i) kvp (buffer m1) = Some b' ->
  live (with_buffer m1 b') = firstn i (live m1) ++ kvp :: skipn i (live m1) /\
  Capacity (with_buffer m1 b') = Capacity m1 /\
  (wf m1 -> wf (with_buffer m1 b')).
Proof.
  intros H. apply buffer_insert_inv in H.
  destruct H as (_ & He & Hc & Hw). rewrite Nat2Z.id in He.
  unfold live, Capacity, wf. simpl. auto.
Qed.

Lemma Insert_inv (kvp : KVP) (m m' : M) :
  Insert kvp m = Some m' ->
  inBulkMode m = false /\
  exists m1,
    grow_if_full m = Some m1 /\
    live m' = firstn (lower_bound (live m) (key kvp)) (live m)
              ++ kvp :: skipn (lower_bound (live m) (key kvp)) (live m) /\
    minGrow m' = minGrow m /\ maxGrow m' = maxGrow m /\
    inBulkMode m' = false /\ Capacity m' = Capacity m1 /\
    (wf m -> wf m').
Proof.
  unfold Insert. destruct (inBulkMode m) eqn:B; [discriminate |].
  destruct (grow_if_full m) as [m1 |] eqn:G; [| discriminate].
  destruct (elementBuffer.insert _ kvp (buffer m1)) as [b' |] eqn:I;
    [| discriminate].
  simpl. intros [= <-]. split; [reflexivity |]. exists m1.
  apply grow_if_full_inv in G. destruct G as (Hl & Hmin & Hmax & Hb & _ & Hw).
  apply insert_at_inv in I. destruct I as (He & Hc & Hw').
  rewrite Hl in He.
  split; [reflexivity |]. split; [assumption |].
  simpl. repeat (split; [congruence |]).
  intros W. apply Hw'. now apply Hw.
Qed.

Lemma Insert_ok (kvp : KVP) (m : M) :
  wf m -> inBulkMode m = false ->
  elementBuffer.spare (buffer m) <> 0 \/ 0 < growBy m ->
  exists m', Insert kvp m = Some m'.
Proof.
  intros W B G. unfold Insert. rewrite B.
  destruct (grow_if_full_ok m G) as [m1 G1]. rewrite G1.
  apply grow_if_full_inv in G1. destruct G1 as (_ & _ & _ & _ & _ & Hw).
  destruct (Hw W) as [W1 Hsp].
  assert (Hi : exists b',
             elementBuffer.insert
               (Z.of_nat (lower_bound (live m1) (key kvp))) kvp (buffer m1)
             = Some b')
    by (apply insert_at_ok; auto using lower_bound_le_length).
  destruct Hi as [b' Hb']. rewrite Hb'. simpl. eauto.
Qed.

Lemma Insert_sorted (kvp : KVP) (m m' : M) :
  Insert kvp m = Some m' -> sorted (live m) -> sorted (live m').
Proof.
  intros H Hs. apply Insert_inv in H. destruct H as (_ & m1 & _ & -> & _).
  now apply sorted_insert_at_lower_bound.
Qed.

(** The test [ptr != elmEnd && ptr->key == k] on a sorted range finds the
    key exactly when it is there. *)
Lemma lower_bound_found (k : KEY) (l : list KVP) :
  sorted l ->
  match nth_error l (lower_bound l k) with
  | Some e => key_eq (key e) k
  | None => false
  end = has_key k l.
Proof.
  intros Hs. destruct (lower_bound_partition k Hs) as [Hlo Hhi].
  rewrite Forall_forall in Hlo, Hhi.
  set (r := lower_bound l k) in *.
  destruct (has_key k l) eqn:Hk.
  - unfold has_key in Hk. apply existsb_exists in Hk.
    destruct Hk as (e & He & Hek). apply key_eq_iff in Hek.
    rewrite <- (firstn_skipn r l) in He. apply in_app_or in He.
    destruct He as [He | He].
    + apply Hlo in He. rewrite Hek, key_lt_irrefl in He. discriminate.
    + destruct (nth_error l r) as [e0 |] eqn:E0.
      * apply key_eq_of_not_lt.
        -- apply Hhi. apply (nth_error_In _ 0).
           now rewrite nth_error_skipn, Nat.add_0_r.
        -- apply In_nth_error in He. destruct He as [j Hj].
           rewrite nth_error_skipn in Hj. rewrite <- Hek.
           eapply (sorted_nth_le Hs); [| exact E0 | exact Hj]. lia.
      * apply nth_error_None in E0. rewrite skipn_all2 in He by lia.
        destruct He.
  - destruct (nth_error l r) as [e0 |] eqn:E0; [| reflexivity].
    destruct (key_eq (key e0) k) eqn:E; [| reflexivity].
    rewrite <- Hk. symmetry. apply existsb_exists. exists e0.
    split; [eapply nth_error_In; eassumption | assumption].
Qed.
End InsertFacts.

(** ** Lookup *)
Section LookupFacts.
Context {KEY VALUE : Type} {KO : KeyOrder KEY}.

Local Abbreviation KVP := (KeyValuePair KEY VALUE).
Local Abbreviation M := (Map KEY VALUE).

Lemma has_key_true (k : KEY) (l : list KVP) :
  has_key k l = true <-> exists e, In e l /\ key e = k.
Proof.
  unfold has_key. rewrite existsb_exists.
  split; intros (e & He & Hk); exists e; split; auto; now apply key_eq_iff.
Qed.

Lemma has_key_false (k : KEY) (l : list KVP) :
  has_key k l = false <-> forall e, In e l -> key e <> k.
Proof.
  split.
  - intros H e He Hk.
    assert (has_key k l = true) by (apply has_key_true; eauto). congruence.
  - intros H. destruct (has_key k l) eqn:E; [| reflexivity].
    apply has_key_true in E. destruct E as (e & He & Hk).
    now apply H in He.
Qed.

Lemma binary_search_has_key (k : KEY) (l : list KVP) :
  sorted l -> binary_search l k = has_key k l.
Proof.
  intros Hs. rewrite <- (lower_bound_found k Hs). unfold binary_search.
  destruct (lower_bound_partition k Hs) as [_ Hhi].
  rewrite Forall_forall in Hhi.
  destruct (nth_error l (lower_bound l k)) as [e |] eqn:E; [| reflexivity].
  assert (Hge : key_lt (key e) k = false).
  { apply Hhi. apply (nth_error_In _ 0).
    now rewrite nth_error_skipn, Nat.add_0_r. }
  destruct (key_lt k (key e)) eqn:L; simpl.
  - symmetry. rewrite key_eq_sym. now apply key_lt_neq.
  - symmetry. now apply key_eq_of_not_lt.
Qed.

Lemma Contains_has_key (k : KEY) (m : M) :
  inBulkMode m = false -> sorted (live m) ->
  Contains k m = Some (has_key k (live m)).
Proof.
  intros B Hs. unfold Contains. rewrite B.
  now rewrite binary_search_has_key.
Qed.

Lemma FindIndex_absent (k : KEY) (m : M) :
  inBulkMode m = false -> sorted (live m) ->
  has_key k (live m) = false -> FindIndex k m = Some InvalidIndex.
Proof.
  intros B Hs Hk. unfold FindIndex. rewrite B.
  rewrite <- (lower_bound_found k Hs) in Hk.
  destruct (nth_error (live m) (lower_bound (live m) k)) as [e |];
    [| reflexivity].
  rewrite key_eq_sym, Hk. reflexivity.
Qed.

Lemma FindIndex_present (k : KEY) (m : M) :
  inBulkMode m = false -> sorted (live m) ->
  has_key k (live m) = true ->
  exists e,
    FindIndex k m = Some (Z.of_nat (lower_bound (live m) k)) /\
    nth_error (live m) (lower_bound (live m) k) = Some e /\
    key e = k /\
    forall j e', (j < lower_bound (live m) k)%nat ->
                 nth_error (live m) j = Some e' -> key e' <> k.
Proof.
  intros B Hs Hk. unfold FindIndex. rewrite B.
  rewrite <- (lower_bound_found k Hs) in Hk.
  destruct (lower_bound_partition k Hs) as [Hlo _].
  rewrite Forall_forall in Hlo.
  destruct (nth_error (live m) (lower_bound (live m) k)) as [e |];
    [| discriminate].
  exists e. rewrite key_eq_sym, Hk.
  split; [reflexivity |]. split; [reflexivity |].
  split; [now apply key_eq_iff |].
  intros j e' Hj He' Heq.
  assert (In e' (firstn (lower_bound (live m) k) (live m))).
  { apply (nth_error_In _ j). rewrite nth_error_firstn.
    destruct (Nat.ltb_spec j (lower_bound (live m) k)); [assumption | lia]. }
  apply Hlo in H. rewrite Heq, key_lt_irrefl in H. discriminate.
Qed.
End LookupFacts.

(** ** Removal *)
Section EraseFacts.
Context {KEY VALUE : Type} {KO : KeyOrder KEY}.

Local Abbreviation KVP := (KeyValuePair KEY VALUE).
Local Abbreviation M := (Map KEY VALUE).

Lemma firstn_length_app (A : Type) (p s : list A) :
  firstn (length p) (p ++ s) = p.
Proof. induction p; simpl; congruence. Qed.

Lemma skipn_length_app (A : Type) (p s : list A) :
  skipn (length p) (p ++ s) = s.
Proof. induction p; simpl; congruence. Qed.

Lemma skipn_S_length_app (A : Type) (p : list A) (a : A) (s : list A) :
  skipn (S (length p)) (p ++ a :: s) = s.
Proof. induction p; simpl in *; congruence. Qed.

Lemma with_buffer_same (m : M) : with_buffer m (buffer m) = m.
Proof. now destruct m. Qed.

(** The loop removes the run of [k] that starts at [index] and nothing
    else, and it always terminates within the fuel [Erase] gives it. *)
Lemma Erase_loop_spec (k : KEY) :
  forall (s : list KVP) (fuel : nat) (p : list KVP) b,
    elementBuffer.elems b = p ++ s -> (length s < fuel)%nat ->
    exists b',
      Erase_loop fuel (Z.of_nat (length p)) k b = Some b' /\
      elementBuffer.elems b' = p ++ drop_run k s /\
      elementBuffer.capacity b' = elementBuffer.capacity b /\
      (elementBuffer.wf b -> elementBuffer.wf b') /\
      (drop_run k s = s -> b' = b).
Proof.
  induction s as [| a s IH]; intros fuel p b He Hf;
    (destruct fuel as [| fuel]; [simpl in Hf; lia |]); cbn [Erase_loop].
  - assert (Hi : (Z.of_nat (length p) <? elementBuffer.size b) = false).
    { unfold elementBuffer.size. rewrite He, length_app. simpl. lia. }
    rewrite Hi. simpl. exists b. auto.
  - assert (Hi : (Z.of_nat (length p) <? elementBuffer.size b) = true).
    { unfold elementBuffer.size. rewrite He, length_app. simpl. lia. }
    rewrite Hi, buffer_at_nat, He, nth_error_app2, Nat.sub_diag by lia.
    cbn [nth_error andb drop_run].
    destruct (key_eq (key a) k) eqn:E.
    + destruct (@buffer_erase_ok _ (Z.of_nat (length p)) b) as [b1 Hb1];
        [lia |].
      rewrite Hb1. apply buffer_erase_inv in Hb1.
      destruct Hb1 as (_ & He1 & Hc1 & Hw1).
      rewrite Nat2Z.id, He, firstn_length_app, skipn_S_length_app in He1.
      destruct (IH fuel p b1 He1) as (b' & Hl & He' & Hc' & Hw' & _);
        [simpl in Hf; lia |].
      exists b'. split; [assumption |]. split; [assumption |].
      split; [congruence |]. split; [auto |].
      intros Hd. exfalso.
      assert (Hlen : (length (drop_run k s) <= length s)%nat).
      { clear. induction s as [| x s IHs]; simpl; [lia |].
        destruct (key_eq (key x) k); simpl; lia. }
      rewrite Hd in Hlen. simpl in Hlen. lia.
    + exists b. auto.
Qed.

Lemma without_key_below (k : KEY) (l : list KVP) :
  Forall (fun e => key_lt (key e) k = true) l -> without_key k l = l.
Proof.
  induction 1 as [| x l Hx _ IH]; simpl; [reflexivity |].
  rewrite (key_lt_neq _ _ Hx). simpl. now rewrite IH.
Qed.

Lemma without_key_above (k : KEY) (l : list KVP) :
  Forall (fun e => key_lt k (key e) = true) l -> without_key k l = l.
Proof.
  induction 1 as [| x l Hx _ IH]; simpl; [reflexivity |].
  rewrite key_eq_sym, (key_lt_neq _ _ Hx). simpl. now rewrite IH.
Qed.

Lemma without_key_app (k : KEY) (l1 l2 : list KVP) :
  without_key k (l1 ++ l2) = without_key k l1 ++ without_key k l2.
Proof. apply filter_app. Qed.

(** On a sorted range that starts at or above [k], dropping the leading
    run of [k] drops every [k]. *)
Lemma drop_run_without_key (k : KEY) (l : list KVP) :
  sorted l -> Forall (fun e => key_lt (key e) k = false) l ->
  drop_run k l = without_key k l.
Proof.
  unfold sorted. induction 1 as [| x l Hs IH F]; intros Hge; simpl;
    [reflexivity |].
  inversion Hge as [| ? ? Hx Hl]; subst.
  destruct (key_eq (key x) k) eqn:E; simpl.
  - now apply IH.
  - f_equal. symmetry. apply without_key_above.
    assert (Hkx : key_lt k (key x) = true).
    { destruct (key_lt k (key x)) eqn:L; [reflexivity |].
      rewrite (key_eq_of_not_lt _ _ Hx L) in E. discriminate. }
    rewrite Forall_forall in *. intros e He.
    eapply key_lt_le_trans; [exact Hkx |]. now apply F.
Qed.

Lemma without_key_sorted (k : KEY) (l : list KVP) :
  sorted l -> sorted (without_key k l).
Proof.
  unfold sorted. induction 1 as [| x l Hs IH F]; simpl; [constructor |].
  destruct (negb (key_eq (key x) k)); [| assumption].
  constructor; [assumption |].
  rewrite Forall_forall in *. intros e He.
  apply filter_In in He. now apply F.
Qed.

Lemma without_key_has_key (k : KEY) (l : list KVP) :
  has_key k (without_key k l) = false.
Proof.
  apply has_key_false. intros e He Hk.
  apply filter_In in He. destruct He as [_ He].
  apply key_eq_iff in Hk. rewrite Hk in He. discriminate.
Qed.

Lemma without_key_absent (k : KEY) (l : list KVP) :
  has_key k l = false -> without_key k l = l.
Proof.
  intros H. induction l as [| x l IH]; simpl in *; [reflexivity |].
  apply orb_false_iff in H. destruct H as [H1 H2].
  rewrite H1. simpl. now rewrite IH.
Qed.

(** [Erase] always completes; this is what it leaves, whatever the order
    of the live range. *)
Lemma Erase_run (k : KEY) (m : M) :
  exists m',
    Erase k m = Some m' /\
    live m' = firstn (lower_bound (live m) k) (live m)
              ++ drop_run k (skipn (lower_bound (live m) k) (live m)) /\
    Capacity m' = Capacity m /\
    minGrow m' = minGrow m /\ maxGrow m' = maxGrow m /\
    inBulkMode m' = inBulkMode m /\
    (wf m -> wf m') /\
    (live m' = live m -> m' = m).
Proof.
  unfold Erase.
  pose proof (lower_bound_le_length (live m) k) as Hr.
  set (r := lower_bound (live m) k) in *.
  destruct (Nat.eqb r (length (live m))) eqn:E.
  - apply Nat.eqb_eq in E. exists m.
    rewrite E, firstn_all, skipn_all. simpl. rewrite app_nil_r.
    repeat (split; [reflexivity |]). auto.
  - assert (Hp : length (firstn r (live m)) = r)
      by (rewrite length_firstn; lia).
    destruct (@Erase_loop_spec k (skipn r (live m)) (S (length (live m)))
                (firstn r (live m)) (buffer m))
      as (b' & Hl & He & Hc & Hw & Hsame).
    + unfold live. now rewrite firstn_skipn.
    + rewrite length_skipn. lia.
    + rewrite Hp in Hl. rewrite Hl. simpl.
      exists (with_buffer m b'). split; [reflexivity |].
      unfold live, Capacity, wf in *. simpl.
      split; [assumption |]. split; [assumption |].
      repeat (split; [reflexivity |]). split; [assumption |].
      intros Hsame'. rewrite Hsame; [apply with_buffer_same |].
      rewrite He in Hsame'.
      rewrite <- (firstn_skipn r (elementBuffer.elems (buffer m))) in Hsame' at 3.
      now apply app_inv_head in Hsame'.
Qed.

(** On a sorted range [Erase] removes exactly the elements with the
    key. *)
Lemma Erase_sorted_run (k : KEY) (l : list KVP) :
  sorted l ->
  firstn (lower_bound l k) l ++ drop_run k (skipn (lower_bound l k) l)
  = without_key k l.
Proof.
  intros Hs. destruct (lower_bound_partition k Hs) as [Hlo Hhi].
  assert (H : without_key k (firstn (lower_bound l k) l
                             ++ skipn (lower_bound l k) l) = without_key k l)
    by now rewrite firstn_skipn.
  rewrite <- H, without_key_app, without_key_below by assumption.
  rewrite drop_run_without_key by (try apply sorted_skipn; assumption).
  reflexivity.
Qed.
End EraseFacts.

(** ** [InsertUnique] *)
Section InsertUniqueFacts.
Context {KEY VALUE : Type} {KO : KeyOrder KEY}.

Local Abbreviation KVP := (KeyValuePair KEY VALUE).
Local Abbreviation M := (Map KEY VALUE).

(** The test the source makes on the result of [std::lower_bound]. *)
Local Abbreviation found l k :=
  (match nth_error l (lower_bound l k) with
   | Some e => key_eq (key e) k
   | None => false
   end).

Lemma InsertUnique_inv (kvp : KVP) (m m' : M) (r : bool) :
  InsertUnique kvp m = Some (r, m') ->
  inBulkMode m = false /\
  exists m1,
    grow_if_full m = Some m1 /\
    r = negb (found (live m) (key kvp)) /\
    (r = false -> m' = m1) /\
    (r = true ->
     live m' = firstn (lower_bound (live m) (key kvp)) (live m)
               ++ kvp :: skipn (lower_bound (live m) (key kvp)) (live m) /\
     minGrow m' = minGrow m /\ maxGrow m' = maxGrow m /\
     inBulkMode m' = false /\ Capacity m' = Capacity m1 /\
     (wf m -> wf m')).
Proof.
  unfold InsertUnique. destruct (inBulkMode m) eqn:B; [discriminate |].
  destruct (grow_if_full m) as [m1 |] eqn:G; [| discriminate].
  pose proof G as G'.
  apply grow_if_full_inv in G'.
  destruct G' as (Hl & Hmin & Hmax & Hb & _ & Hw).
  rewrite Hl.
  destruct (found (live m) (key kvp)) eqn:F.
  - intros [= <- <-]. split; [reflexivity |]. exists m1.
    split; [reflexivity |]. split; [reflexivity |].
    split; [reflexivity | discriminate].
  - destruct (elementBuffer.insert _ kvp (buffer m1)) as [b' |] eqn:I;
      [| discriminate].
    simpl. intros [= <- <-]. split; [reflexivity |]. exists m1.
    split; [reflexivity |]. split; [reflexivity |].
    split; [discriminate |]. intros _.
    apply insert_at_inv in I. destruct I as (He & Hc & Hw').
    rewrite Hl in He. split; [assumption |].
    simpl. repeat (split; [congruence |]).
    intros W. apply Hw'. now apply Hw.
Qed.

Lemma InsertUnique_ok (kvp : KVP) (m : M) :
  wf m -> inBulkMode m = false ->
  elementBuffer.spare (buffer m) <> 0 \/ 0 < growBy m ->
  exists r m', InsertUnique kvp m = Some (r, m').
Proof.
  intros W B G. unfold InsertUnique. rewrite B.
  destruct (grow_if_full_ok m G) as [m1 G1]. rewrite G1.
  apply grow_if_full_inv in G1. destruct G1 as (_ & _ & _ & _ & _ & Hw).
  destruct (Hw W) as [W1 Hsp].
  destruct (found (live m1) (key kvp)); [eauto |].
  assert (Hi : exists b',
             elementBuffer.insert
               (Z.of_nat (lower_bound (live m1) (key kvp))) kvp (buffer m1)
             = Some b')
    by (apply insert_at_ok; auto using lower_bound_le_length).
  destruct Hi as [b' Hb']. rewrite Hb'. simpl. eauto.
Qed.

Lemma InsertUnique_sorted (kvp : KVP) (m m' : M) (r : bool) :
  InsertUnique kvp m = Some (r, m') -> sorted (live m) -> sorted (live m').
Proof.
  intros H Hs. apply InsertUnique_inv in H.
  destruct H as (_ & m1 & G & _ & Hf & Ht).
  destruct r.
  - destruct (Ht eq_refl) as (-> & _).
    now apply sorted_insert_at_lower_bound.
  - rewrite (Hf eq_refl). apply grow_if_full_inv in G.
    destruct G as (-> & _). assumption.
Qed.
End InsertUniqueFacts.

(** ** Sequences of calls in Normal mode *)
Section CallFacts.
Context {KEY VALUE : Type} {KO : KeyOrder KEY}.

Local Abbreviation KVP := (KeyValuePair KEY VALUE).
Local Abbreviation M := (Map KEY VALUE).

Lemma call_sorted (c : Call KEY VALUE) (m m' : M) :
  call c m = Some m' -> sorted (live m) -> sorted (live m').
Proof.
  destruct c as [k v | k v | k]; simpl; intros H Hs.
  - eapply Insert_sorted; eassumption.
  - unfold InsertUnique_kv in H.
    destruct (InsertUnique (mkKVP k v) m) as [[r m1] |] eqn:E;
      [| discriminate].
    simpl in H. injection H as <-.
    eapply InsertUnique_sorted; eassumption.
  - destruct (Erase_run k m) as (m1 & E & Hl & _).
    rewrite E in H. injection H as <-.
    rewrite Hl, Erase_sorted_run by assumption.
    now apply without_key_sorted.
Qed.

(** What a call keeps: the buffer invariant, the mode and the policy. *)
Lemma call_steady (c : Call KEY VALUE) (m m' : M) :
  call c m = Some m' ->
  (wf m -> wf m') /\ inBulkMode m' = inBulkMode m /\
  minGrow m' = minGrow m /\ maxGrow m' = maxGrow m.
Proof.
  destruct c as [k v | k v | k]; simpl; intros H.
  - apply Insert_inv in H.
    destruct H as (B & m1 & _ & _ & Hmin & Hmax & B' & _ & W).
    split; [assumption |]. split; [congruence |]. split; assumption.
  - unfold InsertUnique_kv in H.
    destruct (InsertUnique (mkKVP k v) m) as [[r m1] |] eqn:E;
      [| discriminate].
    simpl in H. injection H as <-.
    apply InsertUnique_inv in E.
    destruct E as (B & m2 & G & _ & Hf & Ht).
    apply grow_if_full_inv in G.
    destruct G as (_ & Hmin & Hmax & Hb & _ & Hw).
    destruct r.
    + destruct (Ht eq_refl) as (_ & Hmin' & Hmax' & B' & _ & W).
      split; [assumption |]. split; [congruence |]. split; assumption.
    + rewrite (Hf eq_refl).
      split; [intros W; now apply Hw |]. split; [assumption |].
      split; assumption.
  - destruct (Erase_run k m) as (m1 & E & _ & _ & Hmin & Hmax & B & W & _).
    rewrite E in H. injection H as <-.
    split; [assumption |]. split; [assumption |]. split; assumption.
Qed.

Lemma call_ok (c : Call KEY VALUE) (m : M) :
  wf m -> inBulkMode m = false -> 0 < minGrow m -> 0 < maxGrow m ->
  exists m', call c m = Some m'.
Proof.
  intros W B Hmin Hmax.
  pose proof (growBy_pos m Hmin Hmax) as G.
  destruct c as [k v | k v | k]; simpl.
  - apply Insert_ok; auto.
  - assert (Hu : exists r m', InsertUnique (mkKVP k v) m = Some (r, m'))
      by (apply InsertUnique_ok; auto).
    destruct Hu as (r & m' & E).
    unfold InsertUnique_kv. rewrite E. simpl. eauto.
  - destruct (Erase_run k m) as (m' & E & _). eauto.
Qed.

Lemma run_sorted (cs : list (Call KEY VALUE)) :
  forall m : M, sorted (live m) ->
                Forall (fun m' => sorted (live m')) (run cs m).
Proof.
  induction cs as [| c cs IH]; intros m Hs; simpl; [constructor |].
  destruct (call c m) as [m' |] eqn:E; [| constructor].
  pose proof (call_sorted c m E Hs). constructor; auto.
Qed.

Lemma run_completes (cs : list (Call KEY VALUE)) :
  forall m : M,
    wf m -> inBulkMode m = false -> 0 < minGrow m -> 0 < maxGrow m ->
    length (run cs m) = length cs.
Proof.
  induction cs as [| c cs IH]; intros m W B Hmin Hmax; simpl; [reflexivity |].
  destruct (call_ok c W B Hmin Hmax) as [m' E]. rewrite E. simpl.
  apply call_steady in E. destruct E as (W' & B' & Hmin' & Hmax').
  rewrite IH; auto; congruence.
Qed.

(** C1: sort invariant.  Starting from an empty map in Normal mode with
    any growth policy, after every completed call of a sequence of
    [Insert], [InsertUnique] and [Erase] calls the live range is
    non-decreasing by key.  A call only fails to complete on a contract
    violation of [grow()]; with a positive growth policy every call of
    the sequence completes. *)
Theorem sort_invariant (minGrow_ maxGrow_ : Z) (cs : list (Call KEY VALUE)) :
  Forall (fun m : M => sorted (live m)) (run cs (Map_new minGrow_ maxGrow_))
  /\ (0 < minGrow_ -> 0 < maxGrow_ ->
      length (run cs (Map_new minGrow_ maxGrow_ : M)) = length cs).
Proof.
  split.
  - apply run_sorted. apply sorted_nil.
  - intros Hmin Hmax. apply run_completes; auto. apply Map_new_wf.
Qed.
End CallFacts.

(** ** The sorted-order operations in Normal mode *)
Section NormalMode.
Context {KEY VALUE : Type} {KO : KeyOrder KEY}.

Local Abbreviation KVP := (KeyValuePair KEY VALUE).
Local Abbreviation M := (Map KEY VALUE).

(** Two [Insert]s of the same key: the second pair lands right before the
    first one. *)
Lemma Insert_same_key_twice (k : KEY) (v1 v2 : VALUE) (m : M) :
  wf m -> inBulkMode m = false -> sorted (live m) ->
  0 < minGrow m -> 0 < maxGrow m ->
  exists m1 m2 before after,
    Insert_kv k v1 m = Some m1 /\ Insert_kv k v2 m1 = Some m2 /\
    live m = before ++ after /\
    live m2 = before ++ mkKVP k v2 :: mkKVP k v1 :: after.
Proof.
  intros W B Hs Hmin Hmax. unfold Insert_kv.
  destruct (Insert_ok (mkKVP k v1) W B (or_intror (growBy_pos m Hmin Hmax)))
    as [m1 H1].
  pose proof (Insert_sorted _ _ H1 Hs) as Hs1. pose proof H1 as H1'.
  apply Insert_inv in H1'.
  destruct H1' as (_ & _ & _ & Hl1 & Hmin1 & Hmax1 & B1 & _ & W1).
  assert (G1 : 0 < growBy m1) by (apply growBy_pos; congruence).
  destruct (Insert_ok (mkKVP k v2) (W1 W) B1 (or_intror G1)) as [m2 H2].
  pose proof H2 as H2'. apply Insert_inv in H2'.
  destruct H2' as (_ & _ & _ & Hl2 & _).
  destruct (lower_bound_partition k Hs) as [Hlo Hhi].
  simpl in Hl1, Hl2.
  set (before := firstn (lower_bound (live m) k) (live m)) in *.
  set (after := skipn (lower_bound (live m) k) (live m)) in *.
  assert (Hr : lower_bound (live m1) k = length before).
  { rewrite Hl1. apply lower_bound_unique.
    - now rewrite <- Hl1.
    - assumption.
    - constructor; [apply key_lt_irrefl | assumption]. }
  rewrite Hr, Hl1, firstn_length_app, skipn_length_app in Hl2.
  exists m1, m2, before, after.
  split; [assumption |]. split; [assumption |].
  split; [unfold before, after; now rewrite firstn_skipn | assumption].
Qed.



(** C7: [Erase(k)] on a map in Normal mode always completes and leaves
    the live range without the elements whose key is [k], every other
    element kept in place and in order; afterwards [Contains(k)] is false
    and [FindIndex(k)] is [InvalidIndex].  When [k] is absent the map is
    unchanged. *)
Theorem Erase_complete (k : KEY) (m : M) :
  inBulkMode m = false -> sorted (live m) ->
  exists m',
    Erase k m = Some m' /\
    live m' = without_key k (live m) /\
    (forall e, In e (live m') <-> In e (live m) /\ key e <> k) /\
    Contains k m' = Some false /\
    FindIndex k m' = Some InvalidIndex /\
    (has_key k (live m) = false -> m' = m) /\
    Capacity m' = Capacity m /\ inBulkMode m' = false.
Proof.
  intros B Hs.
  destruct (Erase_run k m) as (m' & E & Hl & Hc & _ & _ & B' & _ & Hsame).
  rewrite Erase_sorted_run in Hl by assumption.
  assert (Hs' : sorted (live m')) by (rewrite Hl; now apply without_key_sorted).
  assert (Hk : has_key k (live m') = false)
    by (rewrite Hl; apply without_key_has_key).
  rewrite B in B'.
  exists m'. split; [assumption |]. split; [assumption |]. split.
  { intros e. rewrite Hl. unfold without_key. rewrite filter_In.
    split; intros [H1 H2]; split; auto.
    - apply key_eq_neq. now destruct (key_eq (key e) k).
    - apply key_eq_neq in H2. now rewrite H2. }
  split; [rewrite Contains_has_key by assumption; now rewrite Hk |].
  split; [now apply FindIndex_absent |].
  split; [| split; assumption].
  intros Ha. apply Hsame. rewrite Hl. now apply without_key_absent.
Qed.

(** C9: on a map in Normal mode [FindIndex(k)] returns the lower-bound
    position when [k] is present: the element there has the key [k] and
    no element at a smaller index has it.  When [k] is absent the result
    is [InvalidIndex]. *)
Theorem FindIndex_first (k : KEY) (m : M) :
  inBulkMode m = false -> sorted (live m) ->
  (has_key k (live m) = true ->
   exists i e,
     FindIndex k m = Some (Z.of_nat i) /\
     i = lower_bound (live m) k /\
     nth_error (live m) i = Some e /\ key e = k /\
     forall j e', (j < i)%nat -> nth_error (live m) j = Some e' ->
                  key e' <> k) /\
  (has_key k (live m) = false -> FindIndex k m = Some InvalidIndex).
Proof.
  intros B Hs. split; intros Hk.
  - destruct (FindIndex_present k m B Hs Hk) as (e & H1 & H2 & H3 & H4).
    exists (lower_bound (live m) k), e. auto.
  - now apply FindIndex_absent.
Qed.
End NormalMode.

(** ** The growth policy *)
Section GrowthPolicy.
Context {KEY VALUE : Type} {KO : KeyOrder KEY}.

Local Abbreviation M := (Map KEY VALUE).

Lemma growBy_clamp (m : M) :
  minGrow m <= maxGrow m ->
  growBy m = spec_clamp (Capacity m / 2) (minGrow m) (maxGrow m).
Proof.
  unfold growBy, spec_clamp, Capacity. rewrite shiftr_1. intros H.
  destruct (elementBuffer.capacity (buffer m) / 2 <? minGrow m) eqn:E1;
    [lia |].
  destruct (elementBuffer.capacity (buffer m) / 2 >? maxGrow m) eqn:E2; lia.
Qed.

Lemma grow_ok (m : M) :
  wf m -> 0 < growBy m ->
  grow m =
  Some (with_buffer m
          (elementBuffer.mk (Capacity m + growBy m)
                            ((Capacity m + growBy m - Size m) / 2)
                            (live m))).
Proof.
  intros W G. unfold grow. destruct (growBy m >? 0) eqn:E; [| lia].
  apply adjustCapacity_ok. apply buffer_wf_capacity in W.
  unfold Size, Capacity. lia.
Qed.

(** The source's chain of comparisons, for any growth policy: the lower
    bound is tested first. *)
Lemma growBy_chain (m : M) :
  growBy m = if Capacity m / 2 <? minGrow m then minGrow m
             else Z.min (Capacity m / 2) (maxGrow m).
Proof.
  unfold growBy, Capacity. rewrite shiftr_1.
  destruct (elementBuffer.capacity (buffer m) / 2 <? minGrow m);
    [reflexivity |].
  destruct (elementBuffer.capacity (buffer m) / 2 >? maxGrow m) eqn:E; lia.
Qed.

(** C8, as the code has it: the growth step.  [growBy] is half the
    capacity, raised to [minGrow] when it is below [minGrow] and
    otherwise lowered to [maxGrow] when it is above [maxGrow]; for a
    policy with [minGrow <= maxGrow] this is half the capacity clamped
    into [minGrow .. maxGrow].  A [growBy] that is not positive is a
    contract violation.  Otherwise, when [capacity + growBy] fits 32
    bits, the buffer is reallocated to [capacity + growBy] with the
    elements kept, the front spare being [(newCapacity - size) / 2] and
    the back spare the rest.  With [minGrow = 4] and [maxGrow = 16],
    capacity 0 grows to 4 and capacity 20 grows to 30. *)
Theorem grow_policy (m : M) :
  wf m ->
  growBy m = (if Capacity m / 2 <? minGrow m then minGrow m
              else Z.min (Capacity m / 2) (maxGrow m)) /\
  (minGrow m <= maxGrow m ->
   growBy m = spec_clamp (Capacity m / 2) (minGrow m) (maxGrow m)) /\
  (growBy m <= 0 -> grow_int32 m = None /\ grow m = None) /\
  (0 < growBy m -> Capacity m + growBy m <= INT32_MAX ->
   exists m',
     grow_int32 m = Some m' /\ grow m = Some m' /\
     Capacity m' = Capacity m + growBy m /\
     live m' = live m /\
     elementBuffer.frontSpare (buffer m') = (Capacity m' - Size m') / 2 /\
     elementBuffer.backSpare (buffer m')
     = (Capacity m' - Size m') - (Capacity m' - Size m') / 2 /\
     minGrow m' = minGrow m /\ maxGrow m' = maxGrow m /\
     inBulkMode m' = inBulkMode m) /\
  (minGrow m = 4 -> maxGrow m = 16 -> Capacity m = 0 ->
   option_map Capacity (grow_int32 m) = Some 4) /\
  (minGrow m = 4 -> maxGrow m = 16 -> Capacity m = 20 ->
   option_map Capacity (grow_int32 m) = Some 30).
Proof.
  intros W.
  split; [apply growBy_chain |]. split; [apply growBy_clamp |].
  split; [| split; [| split]].
  - intros Hn. unfold grow_int32, grow.
    destruct (growBy m >? 0) eqn:E; [lia | split; reflexivity].
  - intros Hp Hb. rewrite (grow_int32_eq W Hb), (grow_ok W Hp).
    eexists. split; [reflexivity |]. split; [reflexivity |].
    unfold Capacity, live, Size, elementBuffer.backSpare, elementBuffer.size.
    simpl. repeat (split; [reflexivity || lia |]). reflexivity.
  - intros Hmin Hmax Hcap.
    assert (Hg : growBy m = 4)
      by (rewrite growBy_chain, Hmin, Hmax, Hcap; reflexivity).
    rewrite grow_int32_eq by (auto; unfold INT32_MAX; lia).
    rewrite grow_ok by (auto; lia). simpl. unfold Capacity in *. simpl.
    f_equal. lia.
  - intros Hmin Hmax Hcap.
    assert (Hg : growBy m = 10)
      by (rewrite growBy_chain, Hmin, Hmax, Hcap; reflexivity).
    rewrite grow_int32_eq by (auto; unfold INT32_MAX; lia).
    rewrite grow_ok by (auto; lia). simpl. unfold Capacity in *. simpl.
    f_equal. lia.
Qed.
End GrowthPolicy.

(** ** Bulk mode *)
Section BulkFacts.
Context {KEY VALUE : Type} {KO : KeyOrder KEY}.

Local Abbreviation KVP := (KeyValuePair KEY VALUE).
Local Abbreviation M := (Map KEY VALUE).

Lemma InsertBulk_inv (kvp : KVP) (m m' : M) :
  InsertBulk kvp m = Some m' ->
  inBulkMode m = true /\
  exists m1,
    grow_if_full m = Some m1 /\
    live m' = (if elementBuffer.frontSpare (buffer m1)
                  >? elementBuffer.backSpare (buffer m1)
               then kvp :: live m else live m ++ [kvp]) /\
    minGrow m' = minGrow m /\ maxGrow m' = maxGrow m /\
    inBulkMode m' = true /\ Capacity m' = Capacity m1 /\
    (wf m -> wf m').
Proof.
  unfold InsertBulk. destruct (inBulkMode m) eqn:B; [| discriminate].
  destruct (grow_if_full m) as [m1 |] eqn:G; [| discriminate].
  intros H. split; [reflexivity |]. exists m1. split; [reflexivity |].
  apply grow_if_full_inv in G. destruct G as (Hl & Hmin & Hmax & Hb & _ & Hw).
  destruct (elementBuffer.frontSpare (buffer m1)
            >? elementBuffer.backSpare (buffer m1)).
  - destruct (elementBuffer.insert 0 kvp (buffer m1)) as [b' |] eqn:I;
      [| discriminate].
    simpl in H. injection H as <-.
    apply (@insert_at_inv _ _ m1 0%nat) in I. destruct I as (He & Hc & Hw').
    simpl in He. rewrite Hl in He.
    split; [assumption |]. simpl. repeat (split; [congruence |]).
    intros W. apply Hw'. now apply Hw.
  - destruct (elementBuffer.insert (elementBuffer.size (buffer m1)) kvp
                                   (buffer m1)) as [b' |] eqn:I;
      [| discriminate].
    simpl in H. injection H as <-.
    apply (@insert_at_inv _ _ m1 (length (live m1))) in I.
    destruct I as (He & Hc & Hw').
    rewrite firstn_all, skipn_all, Hl in He.
    split; [assumption |]. simpl. repeat (split; [congruence |]).
    intros W. apply Hw'. now apply Hw.
Qed.

Lemma InsertBulk_ok (kvp : KVP) (m : M) :
  wf m -> inBulkMode m = true ->
  elementBuffer.spare (buffer m) <> 0 \/ 0 < growBy m ->
  exists m', InsertBulk kvp m = Some m'.
Proof.
  intros W B G. unfold InsertBulk. rewrite B.
  destruct (grow_if_full_ok m G) as [m1 G1]. rewrite G1.
  apply grow_if_full_inv in G1. destruct G1 as (_ & _ & _ & _ & _ & Hw).
  destruct (Hw W) as [W1 Hsp].
  destruct (elementBuffer.frontSpare (buffer m1)
            >? elementBuffer.backSpare (buffer m1)).
  - assert (Hi : exists b', elementBuffer.insert (Z.of_nat 0) kvp (buffer m1)
                            = Some b')
      by (apply insert_at_ok; auto; lia).
    destruct Hi as [b' Hb']. simpl in Hb'. rewrite Hb'. simpl. eauto.
  - assert (Hi : exists b',
               elementBuffer.insert (Z.of_nat (length (live m1))) kvp
                                    (buffer m1) = Some b')
      by (apply insert_at_ok; auto).
    destruct Hi as [b' Hb']. unfold elementBuffer.size. unfold live in Hb'.
    rewrite Hb'. simpl. eauto.
Qed.

(** C3, the code: in Bulk mode the overload [InsertBulk(key, value)]
    always runs into the assertion of [Insert], while the pair overloads
    grow the buffer if it is full and insert at the end with more spare:
    at the front when the front spare exceeds the back spare, at the back
    otherwise. *)
Theorem InsertBulk_kv_violation (k : KEY) (v : VALUE) (m : M) :
  wf m -> inBulkMode m = true ->
  elementBuffer.spare (buffer m) <> 0 \/ 0 < growBy m ->
  InsertBulk_kv k v m = None /\
  exists m1 m',
    grow_if_full m = Some m1 /\
    InsertBulk (mkKVP k v) m = Some m' /\
    live m' = (if elementBuffer.frontSpare (buffer m1)
                  >? elementBuffer.backSpare (buffer m1)
               then mkKVP k v :: live m else live m ++ [mkKVP k v]).
Proof.
  intros W B G. split.
  - unfold InsertBulk_kv, Insert. now rewrite B.
  - destruct (InsertBulk_ok (mkKVP k v) W B G) as [m' H]. pose proof H as H'.
    apply InsertBulk_inv in H'. destruct H' as (_ & m1 & G1 & Hl & _).
    exists m1, m'. auto.
Qed.

(** C4, as the code has it: in Bulk mode [Contains], [operator[]] by
    key, [Insert], [InsertUnique], [FindIndex] and [FindDuplicate] fail by
    contract violation.  [KeyAtIndex] and [ValueAtIndex] make no check of
    the mode: they return the key and the value of the element at a
    valid index. *)
Theorem bulk_mode_contract (m : M) (k : KEY) (kvp : KVP) (startIndex : Z) :
  inBulkMode m = true ->
  Contains k m = None /\ lookup k m = None /\
  Insert kvp m = None /\ InsertUnique kvp m = None /\
  FindIndex k m = None /\ FindDuplicate startIndex m = None /\
  (forall i e, nth_error (live m) i = Some e ->
               KeyAtIndex (Z.of_nat i) m = Some (key e) /\
               ValueAtIndex (Z.of_nat i) m = Some (value e)).
Proof.
  intros B.
  unfold Contains, lookup, Insert, InsertUnique, FindIndex, FindDuplicate.
  rewrite B. repeat (split; [reflexivity |]).
  intros i e He. unfold KeyAtIndex, ValueAtIndex.
  rewrite buffer_at_nat. unfold live in He. rewrite He. auto.
Qed.
End BulkFacts.

(** ** Loading in bulk against inserting one by one *)
Section BulkRoundTrip.
Context {KEY VALUE : Type} {KO : KeyOrder KEY} {SO : StdSort KEY VALUE}.

Local Abbreviation KVP := (KeyValuePair KEY VALUE).
Local Abbreviation M := (Map KEY VALUE).






End BulkRoundTrip.

(** ** Assignment *)
Section Assignment.
Context {KEY VALUE : Type}.

Local Abbreviation M := (Map KEY VALUE).

Lemma store_set_same (s : store KEY VALUE) (a : nat) (m : M) :
  (a < length s)%nat -> nth_error (store_set s a m) a = Some m.
Proof.
  revert a. induction s as [| x s IH]; intros [| a] H; simpl in *;
    try lia; [reflexivity |].
  apply IH. lia.
Qed.

Lemma store_set_other (s : store KEY VALUE) (a b : nat) (m : M) :
  a <> b -> nth_error (store_set s a m) b = nth_error s b.
Proof.
  revert a b. induction s as [| x s IH]; intros [| a] [| b] H; simpl;
    try reflexivity; try congruence.
  apply IH. congruence.
Qed.

Lemma store_set_length (s : store KEY VALUE) (a : nat) (m : M) :
  length (store_set s a m) = length s.
Proof.
  revert a. induction s as [| x s IH]; intros [| a]; simpl; auto.
Qed.

(** After [b = a] between two different objects, [b] holds the elements
    of [a] in a buffer truncated to their number, and [a] is as before. *)
Lemma assign_copy_distinct (this rhs : nat) (s : store KEY VALUE) (x r : M) :
  this <> rhs ->
  nth_error s this = Some x -> nth_error s rhs = Some r ->
  exists s',
    assign_copy this rhs s = Some s' /\
    nth_error s' rhs = Some r /\
    exists c, nth_error s' this = Some c /\
              live c = live r /\ Capacity c = Size r /\
              minGrow c = minGrow r /\ maxGrow c = maxGrow r /\
              inBulkMode c = inBulkMode r.
Proof.
  intros Hne Hx Hr. unfold assign_copy. rewrite Hx.
  destruct (Nat.eqb_spec rhs this) as [E | E]; [congruence |]. simpl.
  rewrite store_set_other, Hr by assumption.
  assert (Hlen : (this < length s)%nat)
    by (apply nth_error_Some; congruence).
  eexists. split; [reflexivity |].
  rewrite !store_set_other by assumption. split; [assumption |].
  exists (copy r). rewrite store_set_same
    by (now rewrite store_set_length).
  repeat split.
Qed.

(** After [b = std::move(a)] between two different objects, [b] holds
    what [a] held and [a] is empty with a zeroed policy. *)
Lemma assign_move_distinct (this rhs : nat) (s : store KEY VALUE) (x r : M) :
  this <> rhs ->
  nth_error s this = Some x -> nth_error s rhs = Some r ->
  exists s',
    assign_move this rhs s = Some s' /\
    nth_error s' this = Some r /\
    nth_error s' rhs = Some (mkMap elementBuffer.empty 0 0 false).
Proof.
  intros Hne Hx Hr. unfold assign_move. rewrite Hx.
  destruct (Nat.eqb_spec rhs this) as [E | E]; [congruence |]. simpl.
  rewrite store_set_other, Hr by assumption.
  assert (Hthis : (this < length s)%nat)
    by (apply nth_error_Some; congruence).
  assert (Hrhs : (rhs < length s)%nat)
    by (apply nth_error_Some; congruence).
  eexists. split; [reflexivity |].
  rewrite store_set_other by congruence.
  rewrite !store_set_same by (now rewrite ?store_set_length).
  split; [| reflexivity]. now destruct r.
Qed.

(** C10: self-assignment.  For a map object at address [a], the
    copy-assignment [a = a] and the move-assignment [a = std::move(a)]
    return with the store as it was: the object still has its elements,
    its capacity, its growth policy and its mode flag. *)
Theorem self_assignment (s : store KEY VALUE) (a : nat) (m : M) :
  nth_error s a = Some m ->
  assign_copy a a s = Some s /\ assign_move a a s = Some s /\
  forall s', assign_copy a a s = Some s' \/ assign_move a a s = Some s' ->
             nth_error s' a = Some m.
Proof.
  intros H. unfold assign_copy, assign_move.
  rewrite H, Nat.eqb_refl. simpl.
  split; [reflexivity |]. split; [reflexivity |].
  intros s' [[= <-] | [= <-]]; assumption.
Qed.
End Assignment.

(** ** Insertion sort is a [std::sort] *)
Section InsertionSortFacts.
Context {KEY VALUE : Type} {KO : KeyOrder KEY}.

Local Abbreviation KVP := (KeyValuePair KEY VALUE).

Lemma sorted_insert_perm (x : KVP) (l : list KVP) :
  Permutation (x :: l) (sorted_insert x l).
Proof.
  induction l as [| y l IH]; simpl; [reflexivity |].
  destruct (key_lt (key y) (key x)); [| reflexivity].
  rewrite perm_swap. now constructor.
Qed.

Lemma sorted_insert_sorted (x : KVP) (l : list KVP) :
  sorted l -> sorted (sorted_insert x l).
Proof.
  unfold sorted. induction 1 as [| y l S IH F]; simpl.
  - repeat constructor.
  - destruct (key_lt (key y) (key x)) eqn:E.
    + constructor; [assumption |].
      rewrite Forall_forall in *. intros e He.
      apply (Permutation_in _ (Permutation_sym (sorted_insert_perm x l))) in He.
      destruct He as [<- | He]; [now apply key_lt_asym | now apply F].
    + constructor; [now constructor |].
      constructor; [exact E |].
      rewrite Forall_forall in *. intros e He.
      eapply kvp_le_trans; [exact E | now apply F].
Qed.

Lemma insertion_sort_perm (l : list KVP) : Permutation l (insertion_sort l).
Proof.
  induction l as [| x l IH]; simpl; [reflexivity |].
  rewrite <- sorted_insert_perm. now constructor.
Qed.

Lemma insertion_sort_sorted (l : list KVP) : sorted (insertion_sort l).
Proof.
  induction l as [| x l IH]; simpl; [apply sorted_nil |].
  now apply sorted_insert_sorted.
Qed.

#[export] Instance insertion_StdSort : StdSort KEY VALUE :=
  {| std_sort := insertion_sort;
     std_sort_perm := insertion_sort_perm;
     std_sort_sorted := insertion_sort_sorted |}.
End InsertionSortFacts.

(** ** The scenarios of the specification, on [Map<int, String>] *)

Open Scope string_scope.

(** A sorted concrete list is sorted. *)
Ltac sorted_list := unfold sorted; repeat constructor.

(** A conjunction of facts that are at hand or hold by computation. *)
Ltac at_hand :=
  repeat match goal with |- _ /\ _ => split end;
  first [assumption | reflexivity].

(** The invariant of a concrete buffer. *)
Ltac wf_buffer :=
  unfold wf, elementBuffer.wf, elementBuffer.backSpare, elementBuffer.size;
  simpl; lia.

Example scenario_four_inserts :
  option_map (@live Z string)
    (insert_all [mkKVP 5 "e"; mkKVP 1 "a"; mkKVP 3 "c"; mkKVP 1 "z"]
                (Map_new 4 16))
  = Some [mkKVP 1 "z"; mkKVP 1 "a"; mkKVP 3 "c"; mkKVP 5 "e"].
Proof. reflexivity. Qed.

Example scenario_equal_keys :
  option_map (fun m : Map Z string => map (@value _ _) (live m))
    (insert_all [mkKVP 1 "a"; mkKVP 1 "z"] (Map_new 4 16))
  = Some ["z"; "a"].
Proof. reflexivity. Qed.

Example scenario_FindDuplicate :
  FindDuplicate 0
    (mkMap (elementBuffer.mk 4 0
              [mkKVP 1 "z"; mkKVP 1 "a"; mkKVP 3 "c"; mkKVP 5 "e"])
           4 16 false) = Some 0
  /\ FindDuplicate 0
       (mkMap (elementBuffer.mk 4 0 [mkKVP 1 "a"; mkKVP 2 "b"; mkKVP 3 "c"])
              4 16 false) = Some InvalidIndex.
Proof. split; reflexivity. Qed.

Example scenario_bulk_load :
  option_map (@live Z string)
    (bulk_load [mkKVP 5 "e"; mkKVP 1 "a"; mkKVP 3 "c"; mkKVP 0 "y"]
               (Map_new 4 16))
  = Some [mkKVP 0 "y"; mkKVP 1 "a"; mkKVP 3 "c"; mkKVP 5 "e"].
Proof. reflexivity. Qed.

(** [sort_invariant] on the calls of the four-insert scenario followed by
    an [InsertUnique] and an [Erase]. *)
Lemma sort_invariant_witness :
  let cs := [CallInsert 5 "e"; CallInsert 1 "a"; CallInsert 3 "c";
             CallInsert 1 "z"; CallInsertUnique 3 "q"; CallErase 1] in
  (0 < 4 /\ 0 < 16) /\
  Forall (fun m : Map Z string => sorted (live m)) (run cs (Map_new 4 16)) /\
  length (run cs (Map_new 4 16 : Map Z string)) = length cs.
Proof.
  intros cs. split; [lia |].
  destruct (@sort_invariant Z string _ 4 16 cs) as [H1 H2].
  split; [exact H1 | apply H2; lia].
Defined.


(** [InsertBulk_kv_violation] on an empty map that has entered Bulk
    mode. *)
Lemma InsertBulk_kv_violation_witness :
  let m : Map Z string := mkMap elementBuffer.empty 4 16 true in
  BeginBulk (Map_new 4 16) = Some m /\
  (wf m /\ inBulkMode m = true /\
   (elementBuffer.spare (buffer m) <> 0 \/ 0 < growBy m)) /\
  InsertBulk_kv 1 "a" m = None /\
  exists m', InsertBulk (mkKVP 1 "a") m = Some m' /\ live m' = [mkKVP 1 "a"].
Proof.
  intros m.
  assert (W : wf m) by wf_buffer.
  assert (G : elementBuffer.spare (buffer m) <> 0 \/ 0 < growBy m)
    by (right; vm_compute; reflexivity).
  split; [reflexivity |]. split; [at_hand |].
  destruct (@InsertBulk_kv_violation Z string _ 1 "a" m W eq_refl G)
    as (Hkv & m1 & m' & Hg & Hb & Hl).
  split; [exact Hkv |]. exists m'. split; [exact Hb |].
  vm_compute in Hg. injection Hg as <-. exact Hl.
Defined.

(** [bulk_mode_contract] on a map in Bulk mode that holds one pair. *)
Lemma bulk_mode_contract_witness :
  let m : Map Z string :=
    mkMap (elementBuffer.mk 4 2 [mkKVP 1 "a"]) 4 16 true in
  inBulkMode m = true /\
  Contains 1 m = None /\ Insert (mkKVP 2 "b") m = None /\
  FindIndex 1 m = None /\
  KeyAtIndex 0 m = Some 1 /\ ValueAtIndex 0 m = Some "a".
Proof.
  intros m.
  destruct (@bulk_mode_contract Z string _ m 1 (mkKVP 2 "b") 0 eq_refl)
    as (H1 & _ & H3 & _ & H5 & _ & H7).
  destruct (H7 0%nat (mkKVP 1 "a") eq_refl) as [Hk Hv].
  at_hand.
Defined.

(** The claim fails for the indexed accessors: in Bulk mode, after
    [BeginBulk(); InsertBulk(KeyValuePair(1, "a"))], [KeyAtIndex(0)] and
    [ValueAtIndex(0)] return the pair's key and value. *)
Lemma bulk_mode_index_access_counterexample :
  exists m : Map Z string,
    each InsertBulk [mkKVP 1 "a"] (mkMap elementBuffer.empty 4 16 true)
    = Some m /\
    inBulkMode m = true /\
    KeyAtIndex 0 m = Some 1 /\ ValueAtIndex 0 m = Some "a".
Proof. eexists. repeat split. Qed.


(** A map filled to its capacity by [Insert(1, "a")] under the policy
    [minGrow = maxGrow = 1]. *)
Example full_map_reached :
  Insert_kv 1 "a" (Map_new 1 1)
  = Some (mkMap (elementBuffer.mk 1 0 [mkKVP 1 "a"]) 1 1 false).
Proof. reflexivity. Qed.



(** [Erase_complete] on the map of the four-insert scenario: both pairs
    with the key 1 go. *)
Lemma Erase_complete_witness :
  let m : Map Z string :=
    mkMap (elementBuffer.mk 4 0
             [mkKVP 1 "z"; mkKVP 1 "a"; mkKVP 3 "c"; mkKVP 5 "e"])
          4 16 false in
  (inBulkMode m = false /\ sorted (live m)) /\
  exists m', Erase 1 m = Some m' /\
             live m' = [mkKVP 3 "c"; mkKVP 5 "e"] /\
             Contains 1 m' = Some false /\
             FindIndex 1 m' = Some InvalidIndex.
Proof.
  intros m.
  assert (S0 : sorted (live m)) by sorted_list.
  split; [at_hand |].
  destruct (@Erase_complete Z string _ 1 m eq_refl S0)
    as (m' & H & Hl & _ & Hc & Hf & _).
  exists m'. at_hand.
Defined.

(** [grow_policy] on a full map of capacity 20 under the policy
    [minGrow = 4], [maxGrow = 16]. *)
Lemma grow_policy_witness :
  let m : Map Z string :=
    mkMap (elementBuffer.mk 20 0 (repeat (mkKVP 1 "a") 20)) 4 16 false in
  wf m /\
  growBy m = 10 /\ option_map Capacity (grow_int32 m) = Some 30 /\
  exists m', grow_int32 m = Some m' /\ grow m = Some m' /\
             Capacity m' = 30 /\
             elementBuffer.frontSpare (buffer m') = 5 /\
             elementBuffer.backSpare (buffer m') = 5.
Proof.
  intros m.
  assert (W : wf m) by wf_buffer.
  split; [exact W |].
  destruct (@grow_policy Z string m W) as (Hc & _ & _ & Hg & _ & H20).
  split; [rewrite Hc; reflexivity |].
  split; [now apply H20 |].
  destruct (Hg ltac:(vm_compute; reflexivity)
               ltac:(vm_compute; discriminate))
    as (m' & H32 & HZ & Hcap & _ & Hf & Hb & _).
  exists m'. split; [exact H32 |]. split; [exact HZ |].
  vm_compute in HZ. injection HZ as <-.
  split; [reflexivity |]. split; reflexivity.
Defined.

(** The clamp does not describe a policy whose bounds are the other way
    round: [Map(16, 4)] grows an empty map by [growBy = 16], to capacity
    16, where [min(max(0, 16), 4)] is 4. *)
Lemma grow_clamp_counterexample :
  let m : Map Z string := Map_new 16 4 in
  wf m /\
  growBy m = 16 /\
  spec_clamp (Capacity m / 2) (minGrow m) (maxGrow m) = 4 /\
  option_map Capacity (grow_int32 m) = Some 16 /\
  option_map Capacity (grow m) = Some 16.
Proof.
  intros m. split; [wf_buffer |]. repeat split.
Qed.

(** The 32-bit sum of [grow()]: with capacity 4 and
    [minGrow = maxGrow = 2147483647] the sum [curCapacity + growBy] does
    not fit 32 bits; it wraps to a negative capacity, and
    [adjustCapacity] stops at its assertion. *)
Example grow_int32_wraps :
  let m : Map Z string :=
    mkMap (elementBuffer.mk 4 2 []) 2147483647 2147483647 false in
  wf m /\ growBy m = 2147483647 /\
  int32 (Capacity m + growBy m) = -2147483645 /\
  grow_int32 m = None.
Proof.
  intros m. split; [wf_buffer |]. repeat split.
Qed.

(** [FindIndex_first] on the map of the four-insert scenario: the key 1
    is found at index 0, the key 2 is not found. *)
Lemma FindIndex_first_witness :
  let m : Map Z string :=
    mkMap (elementBuffer.mk 4 0
             [mkKVP 1 "z"; mkKVP 1 "a"; mkKVP 3 "c"; mkKVP 5 "e"])
          4 16 false in
  (inBulkMode m = false /\ sorted (live m)) /\
  FindIndex 1 m = Some 0 /\ FindIndex 3 m = Some 2 /\
  FindIndex 2 m = Some InvalidIndex.
Proof.
  intros m.
  assert (S0 : sorted (live m)) by sorted_list.
  split; [at_hand |].
  destruct (@FindIndex_first Z string _ 1 m eq_refl S0) as [H1 _].
  destruct (@FindIndex_first Z string _ 3 m eq_refl S0) as [H3 _].
  destruct (@FindIndex_first Z string _ 2 m eq_refl S0) as [_ H2].
  destruct (H1 eq_refl) as (i1 & e1 & F1 & -> & _).
  destruct (H3 eq_refl) as (i3 & e3 & F3 & -> & _).
  split; [exact F1 |]. split; [exact F3 | exact (H2 eq_refl)].
Defined.

(** [self_assignment] on a store of two maps. *)
Lemma self_assignment_witness :
  let a : Map Z string :=
    mkMap (elementBuffer.mk 4 1 [mkKVP 1 "a"; mkKVP 3 "c"]) 4 16 false in
  let b : Map Z string := Map_new 4 16 in
  nth_error [a; b] 0 = Some a /\
  assign_copy 0 0 [a; b] = Some [a; b] /\
  assign_move 0 0 [a; b] = Some [a; b].
Proof.
  intros a b. split; [reflexivity |].
  destruct (@self_assignment Z string [a; b] 0%nat a eq_refl) as (H1 & H2 & _).
  split; assumption.
Defined.

Close Scope string_scope.

(** * The rest of Map.h *)

(** ** Lookup by key after insertion *)
Section LookupMore.
Context {KEY VALUE : Type} {KO : KeyOrder KEY}.

Local Abbreviation KVP := (KeyValuePair KEY VALUE).
Local Abbreviation M := (Map KEY VALUE).

Lemma find_app_skip (A : Type) (f : A -> bool) (l1 l2 : list A) :
  Forall (fun e => f e = false) l1 -> find f (l1 ++ l2) = find f l2.
Proof.
  induction 1 as [| x l1 Hx _ IH]; simpl; [reflexivity |]. now rewrite Hx.
Qed.


Lemma first_with_key_none (k : KEY) (l : list KVP) :
  first_with_key k l = None <-> has_key k l = false.
Proof.
  unfold first_with_key, has_key.
  induction l as [| x l IH]; simpl; [tauto |].
  destruct (key_eq (key x) k); simpl; [split; discriminate | assumption].
Qed.

Lemma below_fails (k : KEY) (l : list KVP) :
  Forall (fun e => key_lt (key e) k = true) l ->
  Forall (fun e => key_eq (key e) k = false) l.
Proof.
  intros H. eapply Forall_impl; [| exact H].
  intros e He. now apply key_lt_neq.
Qed.

(** On a sorted range the element [std::lower_bound] stops at, when it
    has the key, is the first element with the key. *)
Lemma lower_bound_first_with_key (k : KEY) (l : list KVP) :
  sorted l ->
  match nth_error l (lower_bound l k) with
  | Some e => if key_eq (key e) k then Some e else None
  | None => None
  end = first_with_key k l.
Proof.
  intros Hs. pose proof (lower_bound_found k Hs) as F.
  destruct (lower_bound_partition k Hs) as [Hlo _].
  set (r := lower_bound l k) in *.
  assert (E : first_with_key k (firstn r l ++ skipn r l)
              = first_with_key k (skipn r l))
    by (apply find_app_skip; now apply below_fails).
  rewrite firstn_skipn in E. rewrite E.
  assert (N : nth_error l r = nth_error (skipn r l) 0)
    by (now rewrite nth_error_skipn, Nat.add_0_r).
  rewrite N in *.
  assert (Hin : forall e, In e (skipn r l) -> In e l).
  { intros e He. rewrite <- (firstn_skipn r l). apply in_or_app. now right. }
  destruct (skipn r l) as [| e rest]; simpl in *; [reflexivity |].
  unfold first_with_key. simpl.
  destruct (key_eq (key e) k); [reflexivity |].
  symmetry. apply first_with_key_none. apply has_key_false.
  intros x Hx. symmetry in F. apply has_key_false with (e := x) in F; auto.
Qed.

Lemma lookup_first_with_key (k : KEY) (m : M) :
  inBulkMode m = false -> sorted (live m) ->
  lookup k m = option_map (@value _ _) (first_with_key k (live m)).
Proof.
  intros B Hs. unfold lookup. rewrite B.
  rewrite <- (lower_bound_first_with_key k Hs).
  destruct (nth_error (live m) (lower_bound (live m) k)) as [e |];
    [| reflexivity].
  rewrite key_eq_sym. now destruct (key_eq (key e) k).
Qed.






Lemma live_Size (m m' : M) (n : nat) :
  length (live m') = (length (live m) + n)%nat ->
  Size m' = Size m + Z.of_nat n.
Proof. unfold Size, elementBuffer.size, live. lia. Qed.

(** X1: [operator[]] on a map in Normal mode returns the value of the
    first element that has the key; it is a contract violation exactly
    when no element has the key, which is exactly when [Contains] returns
    false. *)
Theorem lookup_spec (k : KEY) (m : M) :
  inBulkMode m = false -> sorted (live m) ->
  lookup k m = option_map (@value _ _) (first_with_key k (live m)) /\
  (lookup k m = None <-> has_key k (live m) = false) /\
  (lookup k m = None <-> Contains k m = Some false).
Proof.
  intros B Hs. pose proof (lookup_first_with_key k m B Hs) as L.
  assert (N : lookup k m = None <-> has_key k (live m) = false).
  { rewrite L, <- first_with_key_none.
    destruct (first_with_key k (live m)); simpl; split; congruence. }
  split; [assumption |]. split; [assumption |].
  rewrite N, Contains_has_key by assumption.
  split; [now intros -> | congruence].
Qed.




(** X5: on a map in Normal mode the index [FindIndex] returns fits the
    indexed accessors: [KeyAtIndex] gives the key back and [ValueAtIndex]
    gives what [operator[]] gives.  When [FindIndex] returns
    [InvalidIndex], [operator[]] is a contract violation, and so is an
    indexed access at [InvalidIndex]. *)
Theorem FindIndex_accessors (k : KEY) (m : M) :
  inBulkMode m = false ->
  (forall i, FindIndex k m = Some i -> i <> InvalidIndex ->
             KeyAtIndex i m = Some k /\
             exists v, ValueAtIndex i m = Some v /\ lookup k m = Some v) /\
  (FindIndex k m = Some InvalidIndex -> lookup k m = None) /\
  KeyAtIndex InvalidIndex m = None /\ ValueAtIndex InvalidIndex m = None.
Proof.
  intros B. unfold FindIndex, lookup, KeyAtIndex, ValueAtIndex. rewrite B.
  unfold live.
  destruct (nth_error (elementBuffer.elems (buffer m))
              (lower_bound (elementBuffer.elems (buffer m)) k))
    as [e |] eqn:N.
  - destruct (key_eq k (key e)) eqn:E.
    + apply key_eq_iff in E. split; [| split; [| split; reflexivity]].
      * intros i [= <-] _. rewrite buffer_at_nat, N. simpl.
        split; [congruence | eauto].
      * intros [= Hi]. unfold InvalidIndex in Hi. lia.
    + split; [| split; [| split; reflexivity]].
      * intros i [= <-] Hi. contradiction.
      * reflexivity.
  - split; [| split; [| split; reflexivity]].
    + intros i [= <-] Hi. contradiction.
    + reflexivity.
Qed.
End LookupMore.

(** ** Removal, by key and by index *)
Section EraseMore.
Context {KEY VALUE : Type} {KO : KeyOrder KEY}.

Local Abbreviation KVP := (KeyValuePair KEY VALUE).
Local Abbreviation M := (Map KEY VALUE).

Lemma first_with_key_without (k k' : KEY) (l : list KVP) :
  k' <> k -> first_with_key k' (without_key k l) = first_with_key k' l.
Proof.
  intros Hne. unfold first_with_key, without_key.
  induction l as [| x l IH]; simpl; [reflexivity |].
  destruct (key_eq (key x) k) eqn:E; simpl.
  - apply key_eq_iff in E.
    assert (E' : key_eq (key x) k' = false)
      by (apply key_eq_neq; congruence).
    now rewrite E'.
  - now rewrite IH.
Qed.

Lemma has_key_without (k k' : KEY) (l : list KVP) :
  k' <> k -> has_key k' (without_key k l) = has_key k' l.
Proof.
  intros Hne. unfold has_key, without_key.
  induction l as [| x l IH]; simpl; [reflexivity |].
  destruct (key_eq (key x) k) eqn:E; simpl.
  - apply key_eq_iff in E.
    assert (E' : key_eq (key x) k' = false)
      by (apply key_eq_neq; congruence).
    now rewrite E'.
  - now rewrite IH.
Qed.

Lemma count_key_without (k : KEY) (l : list KVP) :
  (length (without_key k l) + count_key k l = length l)%nat.
Proof.
  unfold without_key, count_key.
  induction l as [| x l IH]; simpl; [reflexivity |].
  destruct (key_eq (key x) k); simpl; lia.
Qed.

Lemma count_key_without_other (k k' : KEY) (l : list KVP) :
  k' <> k -> count_key k' (without_key k l) = count_key k' l.
Proof.
  intros Hne. unfold count_key, without_key.
  induction l as [| x l IH]; simpl; [reflexivity |].
  destruct (key_eq (key x) k) eqn:Ex; simpl.
  - apply key_eq_iff in Ex.
    assert (E' : key_eq (key x) k' = false)
      by (apply key_eq_neq; congruence).
    now rewrite E'.
  - destruct (key_eq (key x) k'); simpl; now rewrite IH.
Qed.

Lemma count_key_cons (k : KEY) (x : KVP) (l : list KVP) :
  count_key k (x :: l)
  = ((if key_eq (key x) k then 1 else 0) + count_key k l)%nat.
Proof. unfold count_key. simpl. now destruct (key_eq (key x) k). Qed.

Lemma count_key_app (k : KEY) (l1 l2 : list KVP) :
  count_key k (l1 ++ l2) = (count_key k l1 + count_key k l2)%nat.
Proof. unfold count_key. now rewrite filter_app, length_app. Qed.

(** The leading run [drop_run] drops consists of elements with the
    key. *)
Lemma drop_run_split (k : KEY) (l : list KVP) :
  exists run, l = run ++ drop_run k l /\ Forall (fun e => key e = k) run.
Proof.
  induction l as [| x l (run & Hl & Hr)]; simpl.
  - exists []. split; [reflexivity | constructor].
  - destruct (key_eq (key x) k) eqn:E.
    + exists (x :: run). simpl. split; [now f_equal |].
      constructor; [now apply key_eq_iff | assumption].
    + exists []. split; [reflexivity | constructor].
Qed.

Lemma nth_error_firstn_skipn (A : Type) (l : list A) (i : nat) (e : A) :
  nth_error l i = Some e -> l = firstn i l ++ e :: skipn (S i) l.
Proof.
  intros H. destruct (nth_error_split _ _ H) as (l1 & l2 & -> & <-).
  now rewrite firstn_length_app, skipn_S_length_app.
Qed.

Lemma sorted_remove_one (l : list KVP) (i : nat) :
  sorted l -> sorted (firstn i l ++ skipn (S i) l).
Proof.
  intros Hs. destruct (nth_error l i) as [e |] eqn:N.
  - rewrite (nth_error_firstn_skipn _ _ N) in Hs.
    apply sorted_app_inv in Hs. destruct Hs as (S1 & S2 & H12).
    inversion S2 as [| ? ? S3 F]; subst.
    apply sorted_app; auto.
    intros a b Ha Hb. apply H12; [assumption | now right].
  - apply nth_error_None in N.
    rewrite firstn_all2, skipn_all2, app_nil_r by lia. assumption.
Qed.

(** X6: after [Erase(k)] on a map in Normal mode [operator[]] of [k] is a
    contract violation, while for every other key [operator[]],
    [Contains] and the number of entries are as before; [Size] has gone
    down by the number of entries that had the key [k]. *)
Theorem Erase_other_keys (k : KEY) (m : M) :
  inBulkMode m = false -> sorted (live m) ->
  exists m',
    Erase k m = Some m' /\
    lookup k m' = None /\
    (forall k', k' <> k ->
                lookup k' m' = lookup k' m /\
                Contains k' m' = Contains k' m /\
                count_key k' (live m') = count_key k' (live m)) /\
    Size m' + Z.of_nat (count_key k (live m)) = Size m.
Proof.
  intros B Hs.
  destruct (Erase_run k m) as (m' & E & Hl & _ & _ & _ & B' & _).
  rewrite Erase_sorted_run in Hl by assumption. rewrite B in B'.
  assert (Hs' : sorted (live m')) by (rewrite Hl; now apply without_key_sorted).
  exists m'. split; [assumption |]. split; [| split].
  - rewrite lookup_first_with_key by assumption.
    assert (N : first_with_key k (live m') = None)
      by (apply first_with_key_none; rewrite Hl; apply without_key_has_key).
    now rewrite N.
  - intros k' Hne. split; [| split].
    + rewrite !lookup_first_with_key by assumption.
      now rewrite Hl, first_with_key_without.
    + rewrite !Contains_has_key by assumption.
      now rewrite Hl, has_key_without.
    + now rewrite Hl, count_key_without_other.
  - pose proof (count_key_without k (live m)) as C. rewrite <- Hl in C.
    unfold Size, elementBuffer.size, live in *. lia.
Qed.

(** X7: [Erase(k)] makes no check of the mode and completes on every
    map, sorted or not.  It removes one block of consecutive elements, all
    of them with the key [k], and leaves the elements before and behind
    the block, the capacity and the mode as they are: it never removes an
    element with another key. *)
Theorem Erase_any_mode (k : KEY) (m : M) :
  exists m' front block back,
    Erase k m = Some m' /\
    live m = front ++ block ++ back /\
    live m' = front ++ back /\
    Forall (fun e => key e = k) block /\
    Capacity m' = Capacity m /\ inBulkMode m' = inBulkMode m /\
    minGrow m' = minGrow m /\ maxGrow m' = maxGrow m.
Proof.
  destruct (Erase_run k m) as (m' & E & Hl & Hc & Hmin & Hmax & B & _).
  destruct (drop_run_split k (skipn (lower_bound (live m) k) (live m)))
    as (block & Hsplit & Hb).
  exists m', (firstn (lower_bound (live m) k) (live m)), block,
    (drop_run k (skipn (lower_bound (live m) k) (live m))).
  split; [assumption |]. split; [now rewrite <- Hsplit, firstn_skipn |].
  auto 10.
Qed.

(** X8: on a map in Normal mode that has the key [k], [EraseIndex] at the
    index [FindIndex(k)] returns removes exactly one entry with the key
    [k]: the live range stays sorted, the entries of every other key are
    untouched, [Size] goes down by one and the capacity is kept. *)
Theorem EraseIndex_FindIndex (k : KEY) (m : M) :
  inBulkMode m = false -> sorted (live m) ->
  has_key k (live m) = true ->
  exists i m',
    FindIndex k m = Some i /\
    EraseIndex i m = Some m' /\
    sorted (live m') /\
    (count_key k (live m') + 1 = count_key k (live m))%nat /\
    (forall k', k' <> k -> count_key k' (live m') = count_key k' (live m)) /\
    Size m' = Size m - 1 /\ Capacity m' = Capacity m /\
    inBulkMode m' = false.
Proof.
  intros B Hs Hk.
  destruct (FindIndex_present k m B Hs Hk) as (e & Hf & N & Hke & _).
  set (r := lower_bound (live m) k) in *.
  assert (Hr : (r < length (live m))%nat)
    by (apply nth_error_Some; congruence).
  assert (Ho : exists b', elementBuffer.erase (Z.of_nat r) (buffer m) = Some b').
  { apply buffer_erase_ok. unfold elementBuffer.size, live in *. lia. }
  destruct Ho as [b' Hb']. pose proof Hb' as Hi.
  apply buffer_erase_inv in Hi. destruct Hi as (_ & He & Hc & _).
  rewrite Nat2Z.id in He.
  exists (Z.of_nat r), (with_buffer m b').
  split; [assumption |].
  split; [unfold EraseIndex; now rewrite Hb' |].
  assert (Hl' : live (with_buffer m b') = firstn r (live m) ++ skipn (S r) (live m))
    by exact He.
  pose proof (nth_error_firstn_skipn _ _ N) as Hl.
  split; [rewrite Hl'; now apply sorted_remove_one |].
  remember (firstn r (live m)) as L1 eqn:HL1.
  remember (skipn (S r) (live m)) as L2 eqn:HL2.
  clear HL1 HL2 He N Hf.
  split.
  { rewrite Hl', Hl, !count_key_app, count_key_cons.
    assert (E : key_eq (key e) k = true) by now apply key_eq_iff.
    rewrite E. lia. }
  split.
  { intros k' Hne. rewrite Hl', Hl, !count_key_app, count_key_cons.
    assert (E : key_eq (key e) k' = false)
      by (apply key_eq_neq; congruence).
    rewrite E. reflexivity. }
  split; [| split; [exact Hc | exact B]].
  unfold Size, elementBuffer.size. fold (live (with_buffer m b')).
  fold (live m). rewrite Hl', Hl, !length_app. simpl. lia.
Qed.
End EraseMore.

(** ** Duplicate keys *)
Section Duplicates.
Context {KEY VALUE : Type} {KO : KeyOrder KEY}.

Local Abbreviation KVP := (KeyValuePair KEY VALUE).
Local Abbreviation M := (Map KEY VALUE).

Lemma dup_at_keys (l : list KVP) (j : nat) (a b : KVP) :
  nth_error l j = Some a -> nth_error l (S j) = Some b ->
  dup_at l j <-> key a = key b.
Proof.
  intros Ha Hb. unfold dup_at. split.
  - intros (a' & b' & Ha' & Hb' & E). congruence.
  - intros E. eauto.
Qed.

Lemma dup_at_bound (l : list KVP) (j : nat) :
  dup_at l j -> (S j < length l)%nat.
Proof.
  intros (a & b & _ & Hb & _). apply nth_error_Some. congruence.
Qed.

(** The loop returns the first position at or after [index] where two
    neighbours have equal keys, or [InvalidIndex] when there is none. *)
Lemma FindDuplicate_loop_spec (b : elementBuffer.t KVP) :
  forall (fuel i : nat),
    (i < length (elementBuffer.elems b))%nat ->
    (length (elementBuffer.elems b) - i <= fuel)%nat ->
    (exists j,
        FindDuplicate_loop fuel (Z.of_nat i) (elementBuffer.size b) b
        = Some (Z.of_nat j) /\
        (i <= j)%nat /\ dup_at (elementBuffer.elems b) j /\
        forall j', (i <= j' < j)%nat -> ~ dup_at (elementBuffer.elems b) j')
    \/
    (FindDuplicate_loop fuel (Z.of_nat i) (elementBuffer.size b) b
     = Some InvalidIndex /\
     forall j', (i <= j')%nat -> ~ dup_at (elementBuffer.elems b) j').
Proof.
  set (l := elementBuffer.elems b).
  induction fuel as [| fuel IH]; intros i Hi Hf; [lia |].
  cbn [FindDuplicate_loop].
  destruct (Z.of_nat i <? elementBuffer.size b - 1) eqn:T.
  - assert (Hi' : (S i < length l)%nat)
      by (unfold elementBuffer.size in T; fold l in T; lia).
    replace (Z.of_nat i + 1) with (Z.of_nat (S i)) by lia.
    rewrite !buffer_at_nat. fold l.
    destruct (nth_error l i) as [a |] eqn:Ha;
      [| apply nth_error_None in Ha; lia].
    destruct (nth_error l (S i)) as [c |] eqn:Hc;
      [| apply nth_error_None in Hc; lia].
    destruct (key_eq (key a) (key c)) eqn:E.
    + left. exists i. split; [reflexivity |]. split; [lia |].
      split; [| intros j' Hj'; lia].
      apply (dup_at_keys l i Ha Hc). now apply key_eq_iff.
    + assert (Hn : ~ dup_at l i).
      { intros D. apply (dup_at_keys l i Ha Hc) in D.
        apply key_eq_iff in D. congruence. }
      replace (Z.of_nat (S i)) with (Z.of_nat i + 1) by lia.
      replace (Z.of_nat i + 1) with (Z.of_nat (S i)) by lia.
      destruct (IH (S i) Hi' ltac:(fold l; lia))
        as [(j & Hr & Hj & Hd & Hfirst) | (Hr & Hnone)].
      * left. exists j. split; [assumption |]. split; [lia |].
        split; [assumption |]. intros j' Hj'.
        destruct (Nat.eq_dec j' i) as [-> | Hne]; [assumption |].
        apply Hfirst. lia.
      * right. split; [assumption |]. intros j' Hj'.
        destruct (Nat.eq_dec j' i) as [-> | Hne]; [assumption |].
        apply Hnone. lia.
  - right. split; [reflexivity |]. intros j' Hj' D.
    apply dup_at_bound in D. unfold elementBuffer.size in T. fold l in T, D.
    lia.
Qed.

Lemma FindDuplicate_cases (start : nat) (m : M) :
  inBulkMode m = false ->
  (exists j,
      FindDuplicate (Z.of_nat start) m = Some (Z.of_nat j) /\
      (start <= j)%nat /\ dup_at (live m) j /\
      forall j', (start <= j' < j)%nat -> ~ dup_at (live m) j')
  \/
  (FindDuplicate (Z.of_nat start) m = Some InvalidIndex /\
   forall j', (start <= j')%nat -> ~ dup_at (live m) j').
Proof.
  intros B. unfold FindDuplicate. rewrite B.
  destruct (Z.of_nat start <? elementBuffer.size (buffer m)) eqn:T.
  - unfold elementBuffer.size in T.
    replace (Z.to_nat (elementBuffer.size (buffer m) - Z.of_nat start))
      with (length (elementBuffer.elems (buffer m)) - start)%nat
      by (unfold elementBuffer.size; lia).
    apply FindDuplicate_loop_spec; lia.
  - right. split; [reflexivity |]. intros j' Hj' D.
    apply dup_at_bound in D. unfold elementBuffer.size, live in *. lia.
Qed.

Lemma NoDup_keys_no_dup_at (l : list KVP) (j : nat) :
  NoDup (map (@key _ _) l) -> ~ dup_at l j.
Proof.
  intros N (a & b & Ha & Hb & E).
  rewrite NoDup_nth_error in N.
  assert (Hj : (j < length (map (@key _ _) l))%nat).
  { rewrite length_map. apply nth_error_Some. congruence. }
  specialize (N j (S j) Hj).
  rewrite !nth_error_map, Ha, Hb in N. simpl in N.
  assert (j = S j) by (apply N; congruence). lia.
Qed.

Lemma sorted_no_dup_at_NoDup (l : list KVP) :
  sorted l -> (forall j, ~ dup_at l j) -> NoDup (map (@key _ _) l).
Proof.
  unfold sorted. induction 1 as [| x l Hs IH F]; intros Hn; simpl;
    constructor.
  - intros Hin. apply in_map_iff in Hin. destruct Hin as (e & He & Hin).
    destruct l as [| y l']; [destruct Hin |].
    rewrite Forall_forall in F.
    assert (Hxy : key_lt (key y) (key x) = false) by (apply F; now left).
    assert (Hye : key_lt (key e) (key y) = false).
    { destruct Hin as [-> | Hin]; [apply key_lt_irrefl |].
      inversion Hs as [| ? ? _ Fy]; subst.
      rewrite Forall_forall in Fy. now apply Fy. }
    rewrite He in Hye.
    apply (Hn 0%nat). exists x, y. simpl.
    split; [reflexivity |]. split; [reflexivity |].
    now apply key_lt_connex.
  - apply IH. intros j (a & b & Ha & Hb & E).
    apply (Hn (S j)). exists a, b. auto.
Qed.

Lemma NoDup_keys_without (k : KEY) (l : list KVP) :
  NoDup (map (@key _ _) l) -> NoDup (map (@key _ _) (without_key k l)).
Proof.
  unfold without_key. induction l as [| x l IH]; simpl; intros N;
    [constructor |].
  inversion N as [| ? ? Hx N']; subst.
  destruct (negb (key_eq (key x) k)); simpl; [| auto].
  constructor; [| auto].
  intros Hin. apply Hx. apply in_map_iff in Hin.
  destruct Hin as (e & He & Hin). apply filter_In in Hin.
  apply in_map_iff. exists e. tauto.
Qed.

Lemma NoDup_keys_insert (kvp : KVP) (before after : list KVP) :
  has_key (key kvp) (before ++ after) = false ->
  NoDup (map (@key _ _) (before ++ after)) ->
  NoDup (map (@key _ _) (before ++ kvp :: after)).
Proof.
  intros Hk N.
  apply (Permutation_NoDup
           (l := map (@key _ _) (kvp :: before ++ after))).
  - apply Permutation_map, Permutation_middle.
  - simpl. constructor; [| assumption].
    intros Hin. apply in_map_iff in Hin. destruct Hin as (e & He & Hin).
    rewrite has_key_false in Hk. now apply Hk in Hin.
Qed.

Lemma call_unique_NoDup (c : Call KEY VALUE) (m m' : M) :
  is_unique_call c = true -> call c m = Some m' ->
  sorted (live m) -> NoDup (map (@key _ _) (live m)) ->
  NoDup (map (@key _ _) (live m')).
Proof.
  destruct c as [k v | k v | k]; simpl; intros U H Hs N; [discriminate | |].
  - unfold InsertUnique_kv in H.
    destruct (InsertUnique (mkKVP k v) m) as [[r m1] |] eqn:E;
      [| discriminate].
    simpl in H. injection H as <-.
    apply InsertUnique_inv in E. destruct E as (_ & m2 & G & Hr & Hf & Ht).
    rewrite (lower_bound_found _ Hs) in Hr. simpl in Hr.
    apply grow_if_full_inv in G. destruct G as (Hl & _).
    destruct r.
    + destruct (Ht eq_refl) as (Hl' & _). rewrite Hl'. simpl.
      apply NoDup_keys_insert; rewrite firstn_skipn; [| assumption].
      simpl. destruct (has_key k (live m)); [discriminate | reflexivity].
    + rewrite (Hf eq_refl), Hl. assumption.
  - destruct (Erase_run k m) as (m1 & E & Hl & _).
    rewrite E in H. injection H as <-.
    rewrite Hl, Erase_sorted_run by assumption.
    now apply NoDup_keys_without.
Qed.

Lemma run_unique_NoDup (cs : list (Call KEY VALUE)) :
  forall m : M,
    forallb is_unique_call cs = true ->
    inBulkMode m = false -> sorted (live m) ->
    NoDup (map (@key _ _) (live m)) ->
    Forall (fun m' => NoDup (map (@key _ _) (live m'))
                      /\ inBulkMode m' = false) (run cs m).
Proof.
  induction cs as [| c cs IH]; intros m U B Hs N; simpl; [constructor |].
  simpl in U. apply andb_true_iff in U. destruct U as [Uc Ucs].
  destruct (call c m) as [m' |] eqn:E; [| constructor].
  pose proof (call_unique_NoDup c m Uc E Hs N) as N'.
  pose proof (call_sorted c m E Hs) as Hs'.
  apply call_steady in E. destruct E as (_ & B' & _).
  rewrite B in B'. constructor; auto.
Qed.

Lemma sorted_contiguous (l : list KVP) :
  sorted l ->
  forall i n j a c b,
    (i <= n <= j)%nat ->
    nth_error l i = Some a -> nth_error l n = Some c ->
    nth_error l j = Some b ->
    key a = key b -> key c = key a.
Proof.
  intros Hs i n j a c b Hinj Ha Hc Hb E.
  assert (H1 : kvp_le a c)
    by (eapply (sorted_nth_le Hs); [| exact Ha | exact Hc]; lia).
  assert (H2 : kvp_le c b)
    by (eapply (sorted_nth_le Hs); [| exact Hc | exact Hb]; lia).
  unfold kvp_le in *. rewrite <- E in H2.
  now apply key_lt_connex.
Qed.

(** X9: [FindDuplicate(startIndex)] on a map in Normal mode, for a
    non-negative [startIndex], returns the first index at or after
    [startIndex] whose element and its right neighbour have equal keys;
    it returns [InvalidIndex] exactly when there is no such index (in
    particular when [startIndex] is at or beyond the size). *)
Theorem FindDuplicate_spec (start : nat) (m : M) :
  inBulkMode m = false ->
  (exists j,
      FindDuplicate (Z.of_nat start) m = Some (Z.of_nat j) /\
      (start <= j)%nat /\ dup_at (live m) j /\
      forall j', (start <= j' < j)%nat -> ~ dup_at (live m) j')
  \/
  (FindDuplicate (Z.of_nat start) m = Some InvalidIndex /\
   forall j', (start <= j')%nat -> ~ dup_at (live m) j').
Proof. apply FindDuplicate_cases. Qed.

(** X10: on a map in Normal mode [FindDuplicate(0)] returns
    [InvalidIndex] if and only if no two elements of the map have the
    same key. *)
Theorem FindDuplicate_NoDup (m : M) :
  inBulkMode m = false -> sorted (live m) ->
  FindDuplicate 0 m = Some InvalidIndex <-> NoDup (map (@key _ _) (live m)).
Proof.
  intros B Hs.
  destruct (FindDuplicate_cases 0 m B)
    as [(j & Hr & _ & Hd & _) | (Hr & Hnone)]; simpl in Hr; rewrite Hr.
  - split.
    + intros [= Hj]. unfold InvalidIndex in Hj. lia.
    + intros N. exfalso. eapply NoDup_keys_no_dup_at; eassumption.
  - split; [| reflexivity]. intros _.
    apply sorted_no_dup_at_NoDup; [assumption |].
    intros j'. apply Hnone. lia.
Qed.

(** X11: a map that is only ever changed by [InsertUnique] and [Erase]
    never holds two elements with the same key: from an empty map, after
    every completed call of such a sequence the keys are pairwise
    different and [FindDuplicate(0)] returns [InvalidIndex]. *)
Theorem InsertUnique_no_duplicates
        (minGrow_ maxGrow_ : Z) (cs : list (Call KEY VALUE)) :
  forallb is_unique_call cs = true ->
  Forall (fun m : M => NoDup (map (@key _ _) (live m)) /\
                       FindDuplicate 0 m = Some InvalidIndex)
         (run cs (Map_new minGrow_ maxGrow_)).
Proof.
  intros U.
  assert (H : Forall (fun m' : M => NoDup (map (@key _ _) (live m'))
                                    /\ inBulkMode m' = false)
                     (run cs (Map_new minGrow_ maxGrow_))).
  { apply run_unique_NoDup; auto; [apply sorted_nil | constructor]. }
  eapply Forall_impl; [| exact H].
  intros m [N B]. split; [assumption |].
  destruct (FindDuplicate_cases 0 m B)
    as [(j & _ & _ & Hd & _) | (Hr & _)]; [| exact Hr].
  exfalso. eapply NoDup_keys_no_dup_at; eassumption.
Qed.

(** X12: elements with the same key have adjacent indices.  From an empty
    map, after every completed call of a sequence of [Insert],
    [InsertUnique] and [Erase] calls, whenever the elements at two indices
    have the same key, every element at an index in between has that key
    too. *)
Theorem duplicates_adjacent
        (minGrow_ maxGrow_ : Z) (cs : list (Call KEY VALUE)) :
  Forall (fun m : M =>
            forall i n j a c b,
              (i <= n <= j)%nat ->
              nth_error (live m) i = Some a ->
              nth_error (live m) n = Some c ->
              nth_error (live m) j = Some b ->
              key a = key b -> key c = key a)
         (run cs (Map_new minGrow_ maxGrow_)).
Proof.
  eapply Forall_impl; [| apply run_sorted; apply sorted_nil].
  intros m Hs. now apply sorted_contiguous.
Qed.
End Duplicates.

(** ** Capacity: [Reserve], [Trim] and growth along a run *)
Section CapacityMore.
Context {KEY VALUE : Type} {KO : KeyOrder KEY}.

Local Abbreviation KVP := (KeyValuePair KEY VALUE).
Local Abbreviation M := (Map KEY VALUE).

Lemma spare_Capacity_Size (m : M) :
  elementBuffer.spare (buffer m) = Capacity m - Size m.
Proof.
  unfold elementBuffer.spare, elementBuffer.backSpare, Capacity, Size. lia.
Qed.

(** An [Insert] into a map with spare capacity does not reallocate. *)
Lemma Insert_with_spare (kvp : KVP) (m : M) :
  wf m -> inBulkMode m = false -> 0 < elementBuffer.spare (buffer m) ->
  exists m',
    Insert kvp m = Some m' /\
    Capacity m' = Capacity m /\ Size m' = Size m + 1 /\
    wf m' /\ inBulkMode m' = false /\
    minGrow m' = minGrow m /\ maxGrow m' = maxGrow m.
Proof.
  intros W B Hsp.
  assert (G : elementBuffer.spare (buffer m) <> 0 \/ 0 < growBy m)
    by (left; lia).
  destruct (Insert_ok kvp W B G) as [m' H]. exists m'.
  split; [assumption |]. apply Insert_inv in H.
  destruct H as (_ & m1 & G1 & Hl & Hmin & Hmax & B' & Hc & W').
  apply grow_if_full_inv in G1. destruct G1 as (_ & _ & _ & _ & Hsame & _).
  rewrite (Hsame ltac:(lia)) in Hc.
  split; [assumption |]. split; [| auto].
  pose proof (lower_bound_le_length (live m) (key kvp)) as Hr.
  change 1 with (Z.of_nat 1). apply live_Size.
  rewrite Hl, length_app. simpl. rewrite length_firstn, length_skipn. lia.
Qed.

Lemma insert_all_with_spare (ps : list KVP) :
  forall m : M,
    wf m -> inBulkMode m = false ->
    Z.of_nat (length ps) <= elementBuffer.spare (buffer m) ->
    exists m',
      insert_all ps m = Some m' /\
      Capacity m' = Capacity m /\
      Size m' = Size m + Z.of_nat (length ps).
Proof.
  unfold insert_all.
  induction ps as [| p ps IH]; intros m W B Hsp; simpl.
  - exists m. repeat split. lia.
  - destruct (Insert_with_spare p W B ltac:(simpl in Hsp; lia))
      as (m1 & H1 & Hc1 & Hs1 & W1 & B1 & _).
    rewrite H1.
    destruct (IH m1 W1 B1) as (m' & H' & Hc' & Hs').
    { rewrite spare_Capacity_Size in *. simpl in Hsp. lia. }
    exists m'. split; [assumption |]. split; [congruence |].
    simpl length. lia.
Qed.

(** An [InsertBulk] into a map with spare capacity does not
    reallocate. *)
Lemma InsertBulk_with_spare (kvp : KVP) (m : M) :
  wf m -> inBulkMode m = true -> 0 < elementBuffer.spare (buffer m) ->
  exists m',
    InsertBulk kvp m = Some m' /\
    Capacity m' = Capacity m /\ Size m' = Size m + 1 /\
    wf m' /\ inBulkMode m' = true.
Proof.
  intros W B Hsp.
  assert (G : elementBuffer.spare (buffer m) <> 0 \/ 0 < growBy m)
    by (left; lia).
  destruct (InsertBulk_ok kvp W B G) as [m' H]. exists m'.
  split; [assumption |]. apply InsertBulk_inv in H.
  destruct H as (_ & m1 & G1 & Hl & _ & _ & B' & Hc & W').
  apply grow_if_full_inv in G1. destruct G1 as (_ & _ & _ & _ & Hsame & _).
  rewrite (Hsame ltac:(lia)) in Hc, Hl.
  split; [assumption |]. split; [| auto].
  change 1 with (Z.of_nat 1). apply live_Size.
  destruct (_ >? _); rewrite Hl; [simpl; lia |].
  rewrite length_app. reflexivity.
Qed.

Lemma each_InsertBulk_with_spare (ps : list KVP) :
  forall m : M,
    wf m -> inBulkMode m = true ->
    Z.of_nat (length ps) <= elementBuffer.spare (buffer m) ->
    exists m',
      each InsertBulk ps m = Some m' /\
      Capacity m' = Capacity m /\
      Size m' = Size m + Z.of_nat (length ps).
Proof.
  induction ps as [| p ps IH]; intros m W B Hsp; simpl.
  - exists m. repeat split. lia.
  - destruct (InsertBulk_with_spare p W B ltac:(simpl in Hsp; lia))
      as (m1 & H1 & Hc1 & Hs1 & W1 & B1).
    rewrite H1.
    destruct (IH m1 W1 B1) as (m' & H' & Hc' & Hs').
    { rewrite spare_Capacity_Size in *. simpl in Hsp. lia. }
    exists m'. split; [assumption |]. split; [congruence |].
    simpl length. lia.
Qed.

Lemma grow_if_full_capacity (m m1 : M) :
  grow_if_full m = Some m1 -> Capacity m <= Capacity m1.
Proof.
  unfold grow_if_full.
  destruct (elementBuffer.spare (buffer m) =? 0); [| intros [= <-]; lia].
  unfold grow. destruct (growBy m >? 0) eqn:G; [| discriminate].
  intros H. apply adjustCapacity_inv in H. destruct H as [_ ->].
  unfold Capacity. simpl. lia.
Qed.

Lemma call_capacity (c : Call KEY VALUE) (m m' : M) :
  call c m = Some m' -> Capacity m <= Capacity m'.
Proof.
  destruct c as [k v | k v | k]; simpl; intros H.
  - apply Insert_inv in H. destruct H as (_ & m1 & G & _ & _ & _ & _ & Hc & _).
    apply grow_if_full_capacity in G. lia.
  - unfold InsertUnique_kv in H.
    destruct (InsertUnique (mkKVP k v) m) as [[r m1] |] eqn:E;
      [| discriminate].
    simpl in H. injection H as <-.
    apply InsertUnique_inv in E. destruct E as (_ & m2 & G & _ & Hf & Ht).
    apply grow_if_full_capacity in G.
    destruct r.
    + destruct (Ht eq_refl) as (_ & _ & _ & _ & Hc & _). lia.
    + rewrite (Hf eq_refl). assumption.
  - destruct (Erase_run k m) as (m1 & E & _ & Hc & _).
    rewrite E in H. injection H as <-. lia.
Qed.

Lemma run_capacity_sorted (cs : list (Call KEY VALUE)) :
  forall m : M,
    wf m ->
    StronglySorted Z.le (Capacity m :: map Capacity (run cs m)) /\
    Forall (fun m' => wf m' /\ Size m' <= Capacity m') (run cs m).
Proof.
  induction cs as [| c cs IH]; intros m W; simpl.
  - split; repeat constructor.
  - destruct (call c m) as [m' |] eqn:E; [| split; repeat constructor].
    pose proof (call_capacity c m E) as Hc.
    apply call_steady in E. destruct E as (W' & _).
    destruct (IH m' (W' W)) as [Hs Hw]. split.
    + constructor; [assumption |].
      inversion Hs as [| ? ? _ F]; subst.
      constructor; [assumption |].
      eapply Forall_impl; [| exact F]. intros z Hz. simpl in Hz. lia.
    + constructor; [| assumption].
      split; [now apply W' |]. apply buffer_wf_capacity. now apply W'.
Qed.

(** X13: [Reserve(n)] makes no check of the mode and adds [size + n] on
    32 bits.  When the sum fits 32 bits, [Reserve(n)] leaves the capacity
    at the larger of the old capacity and [size + n], so that there is
    room for [n] more elements, and keeps the elements, the mode and the
    growth policy; the next insertions that fit the mode, up to [n] of
    them, then all complete without a reallocation, whatever the growth
    policy is ([Insert] in Normal mode, [InsertBulk] in Bulk mode): the
    capacity stays what [Reserve] left and [Size] goes up by the number
    of pairs.  When the sum does not fit 32 bits it wraps to a negative
    number and [Reserve(n)] leaves the map as it is. *)
Theorem Reserve_then_inserts (n : Z) (m : M) :
  wf m -> INT32_MIN <= n <= INT32_MAX -> Capacity m <= INT32_MAX ->
  (INT32_MAX < Size m + n -> Reserve n m = Some m) /\
  (Size m + n <= INT32_MAX ->
   exists m1,
     Reserve n m = Some m1 /\
     Capacity m1 = Z.max (Capacity m) (Size m + n) /\
     Size m1 + n <= Capacity m1 /\ live m1 = live m /\ wf m1 /\
     inBulkMode m1 = inBulkMode m /\
     minGrow m1 = minGrow m /\ maxGrow m1 = maxGrow m /\
     (inBulkMode m = false ->
      forall ps : list KVP,
        Z.of_nat (length ps) <= n ->
        exists m2,
          insert_all ps m1 = Some m2 /\
          Capacity m2 = Capacity m1 /\
          Size m2 = Size m + Z.of_nat (length ps)) /\
     (inBulkMode m = true ->
      forall ps : list KVP,
        Z.of_nat (length ps) <= n ->
        exists m2,
          each InsertBulk ps m1 = Some m2 /\
          Capacity m2 = Capacity m1 /\
          Size m2 = Size m + Z.of_nat (length ps))).
Proof.
  intros W [Hlo Hhi] Hcap. pose proof (buffer_wf_capacity W) as Hc.
  split.
  - intros Hover. apply Reserve_int32_overflow; auto.
    unfold Size, Capacity in *. lia.
  - intros Hb.
    destruct (@Reserve_spec _ _ n m W Hlo Hb)
      as (m1 & H1 & Hc1 & Hroom & Hl & W1 & B1 & Hmin & Hmax).
    assert (Hsz : Size m1 = Size m).
    { unfold Size, elementBuffer.size. fold (live m1). fold (live m).
      now rewrite Hl. }
    exists m1. repeat (split; [assumption |]). split.
    + intros B ps Hn. rewrite B in B1.
      destruct (@insert_all_with_spare ps m1 W1 B1) as (m2 & H2 & Hc2 & Hs2).
      { rewrite spare_Capacity_Size. lia. }
      exists m2. split; [assumption |]. split; [assumption |].
      rewrite Hs2, Hsz. reflexivity.
    + intros B ps Hn. rewrite B in B1.
      destruct (@each_InsertBulk_with_spare ps m1 W1 B1)
        as (m2 & H2 & Hc2 & Hs2).
      { rewrite spare_Capacity_Size. lia. }
      exists m2. split; [assumption |]. split; [assumption |].
      rewrite Hs2, Hsz. reflexivity.
Qed.

(** X14: [Trim()] keeps the elements and leaves the capacity equal to the
    size, so that no spare capacity is left and a second [Trim()] changes
    nothing; mode and growth policy are kept. *)
Theorem Trim_spec (m : M) :
  wf m ->
  exists m',
    Trim m = Some m' /\
    live m' = live m /\ Capacity m' = Size m /\
    elementBuffer.spare (buffer m') = 0 /\ wf m' /\
    inBulkMode m' = inBulkMode m /\
    minGrow m' = minGrow m /\ maxGrow m' = maxGrow m /\
    Trim m' = Some m'.
Proof.
  intros W. pose proof (buffer_wf_capacity W) as Hc. unfold Trim.
  destruct (elementBuffer.size (buffer m)
            <? elementBuffer.capacity (buffer m)) eqn:E.
  - rewrite adjustCapacity_ok by (unfold Size; lia).
    eexists. split; [reflexivity |].
    unfold live, Capacity, Size, wf, elementBuffer.wf, elementBuffer.spare,
      elementBuffer.backSpare, elementBuffer.size.
    cbn [buffer with_buffer minGrow maxGrow inBulkMode
         elementBuffer.capacity elementBuffer.frontSpare elementBuffer.elems].
    rewrite Z.sub_diag. change (0 / 2) with 0.
    repeat (split; [reflexivity || lia |]).
    rewrite Z.ltb_irrefl. reflexivity.
  - exists m. rewrite E. rewrite spare_Capacity_Size.
    unfold Capacity, Size in *. repeat (split; [first [assumption | reflexivity | lia] |]).
    reflexivity.
Qed.

(** X15: along every sequence of [Insert], [InsertUnique] and [Erase]
    calls from an empty map the capacity never shrinks, and after every
    completed call the buffer invariant holds: the spares are not
    negative and the size is at most the capacity. *)
Theorem run_capacity (minGrow_ maxGrow_ : Z) (cs : list (Call KEY VALUE)) :
  StronglySorted Z.le
    (0 :: map Capacity (run cs (Map_new minGrow_ maxGrow_ : M))) /\
  Forall (fun m : M => wf m /\ Size m <= Capacity m)
         (run cs (Map_new minGrow_ maxGrow_)).
Proof.
  apply (@run_capacity_sorted cs (Map_new minGrow_ maxGrow_)).
  apply Map_new_wf.
Qed.
End CapacityMore.

(** ** Copying, moving and destroying *)
Section OwnershipMore.
Context {KEY VALUE : Type} {KO : KeyOrder KEY}.

Local Abbreviation KVP := (KeyValuePair KEY VALUE).
Local Abbreviation M := (Map KEY VALUE).

Lemma copy_wf (r : M) : wf (copy r) /\ elementBuffer.spare (buffer (copy r)) = 0.
Proof.
  unfold wf, elementBuffer.wf, elementBuffer.spare, elementBuffer.backSpare,
    elementBuffer.size, copy, elementBuffer.copy, elementBuffer.size.
  simpl. lia.
Qed.

(** X16: copy-assignment [b = a] between two different objects leaves
    [a] and every other object as they were and gives [b] the elements,
    the growth policy and the mode of [a], in a buffer whose capacity is
    truncated to the number of elements, so that [b] has no spare
    capacity left. *)
Theorem copy_assignment (this rhs : nat) (s : store KEY VALUE) (x r : M) :
  this <> rhs ->
  nth_error s this = Some x -> nth_error s rhs = Some r ->
  exists s' c,
    assign_copy this rhs s = Some s' /\
    nth_error s' this = Some c /\
    (forall a, a <> this -> nth_error s' a = nth_error s a) /\
    live c = live r /\ Capacity c = Size r /\
    elementBuffer.spare (buffer c) = 0 /\ wf c /\
    minGrow c = minGrow r /\ maxGrow c = maxGrow r /\
    inBulkMode c = inBulkMode r.
Proof.
  intros Hne Hx Hr. unfold assign_copy. rewrite Hx.
  destruct (Nat.eqb_spec rhs this) as [E | E]; [congruence |]. simpl.
  rewrite store_set_other, Hr by assumption.
  assert (Hlen : (this < length s)%nat)
    by (apply nth_error_Some; congruence).
  exists (store_set (store_set s this (destroy x)) this (copy r)), (copy r).
  split; [reflexivity |].
  split; [apply store_set_same; now rewrite store_set_length |].
  split; [intros a Ha; now rewrite !store_set_other by congruence |].
  destruct (copy_wf r) as [W Hsp].
  split; [reflexivity |]. split; [reflexivity |].
  split; [assumption |]. split; [assumption |]. auto.
Qed.

(** X17: move-assignment [b = std::move(a)] between two different
    objects gives [b] exactly what [a] held, capacity included, leaves
    [a] empty with capacity 0, a zeroed growth policy and Normal mode, and
    touches no other object. *)
Theorem move_assignment (this rhs : nat) (s : store KEY VALUE) (x r : M) :
  this <> rhs ->
  nth_error s this = Some x -> nth_error s rhs = Some r ->
  exists s',
    assign_move this rhs s = Some s' /\
    nth_error s' this = Some r /\
    nth_error s' rhs = Some (Map_new 0 0) /\
    (forall a, a <> this -> a <> rhs -> nth_error s' a = nth_error s a).
Proof.
  intros Hne Hx Hr. unfold assign_move. rewrite Hx.
  destruct (Nat.eqb_spec rhs this) as [E | E]; [congruence |]. simpl.
  rewrite store_set_other, Hr by assumption.
  assert (Hthis : (this < length s)%nat)
    by (apply nth_error_Some; congruence).
  assert (Hrhs : (rhs < length s)%nat)
    by (apply nth_error_Some; congruence).
  eexists. split; [reflexivity |].
  rewrite store_set_other by congruence.
  rewrite !store_set_same by (now rewrite ?store_set_length).
  split; [now destruct r |]. split; [reflexivity |].
  intros a Ha Hb. now rewrite !store_set_other by congruence.
Qed.

(** What is left of a map after [move] or [destroy]: no capacity and a
    zeroed growth policy, so that [grow()] computes [growBy = 0] and runs
    into its assertion. *)
Lemma zeroed_grow (m0 : M) :
  elementBuffer.capacity (buffer m0) = 0 ->
  minGrow m0 = 0 -> maxGrow m0 = 0 ->
  growBy m0 = 0 /\ grow m0 = None /\ grow_int32 m0 = None.
Proof.
  intros Hc Hmin Hmax.
  assert (G : growBy m0 = 0).
  { unfold growBy. rewrite Hc, Hmin, Hmax. reflexivity. }
  unfold grow, grow_int32. rewrite G. auto.
Qed.

(** X18: a map that has been moved from, or destroyed, has no capacity
    and a zeroed growth policy, so that [grow()] is a contract violation
    ([growBy] is 0).  A moved-from map is in Normal mode: [Insert] and
    [InsertUnique] pass the mode assertion and fail in [grow()], and so
    does [InsertBulk] after [BeginBulk()].  A destroyed map keeps its
    mode: in Normal mode the same holds, in Bulk mode [InsertBulk] passes
    the mode assertion and fails in [grow()].  After [SetAllocStrategy]
    with a positive policy the insertion that fits the mode works
    again. *)
Theorem moved_from_rejects_inserts (r : M) (kvp : KVP) (m0 : M) :
  m0 = snd (move r) \/ m0 = destroy r ->
  (m0 = snd (move r) -> inBulkMode m0 = false) /\
  (m0 = destroy r -> inBulkMode m0 = inBulkMode r) /\
  Size m0 = 0 /\ Capacity m0 = 0 /\ minGrow m0 = 0 /\ maxGrow m0 = 0 /\
  elementBuffer.spare (buffer m0) = 0 /\
  growBy m0 = 0 /\ grow m0 = None /\ grow_int32 m0 = None /\
  grow_if_full m0 = None /\
  (inBulkMode m0 = false ->
   Contains (key kvp) m0 = Some false /\
   Insert kvp m0 = None /\ InsertUnique kvp m0 = None /\
   exists b, BeginBulk m0 = Some b /\ inBulkMode b = true /\
             InsertBulk kvp b = None) /\
  (inBulkMode m0 = true -> InsertBulk kvp m0 = None) /\
  (forall minGrow_ maxGrow_,
     0 < minGrow_ -> 0 < maxGrow_ ->
     (inBulkMode m0 = false ->
      exists m', Insert kvp (SetAllocStrategy minGrow_ maxGrow_ m0) = Some m'
                 /\ live m' = [kvp]) /\
     (inBulkMode m0 = true ->
      exists m', InsertBulk kvp (SetAllocStrategy minGrow_ maxGrow_ m0)
                 = Some m'
                 /\ live m' = [kvp])).
Proof.
  intros Hm0.
  assert (Shape : exists bulk,
             m0 = mkMap (@elementBuffer.empty KVP) 0 0 bulk /\
             (m0 = snd (move r) -> bulk = false) /\
             (m0 = destroy r -> bulk = inBulkMode r)).
  { destruct r as [b mn mx bulk].
    destruct Hm0 as [-> | ->]; simpl.
    - exists false. split; [reflexivity |]. split; [reflexivity |].
      unfold destroy. simpl. intros [= E]. exact E.
    - exists bulk. split; [reflexivity |]. split; [| reflexivity].
      unfold destroy. simpl. intros [= E]. now symmetry. }
  destruct Shape as (bulk & -> & Hmove & Hdestroy). simpl.
  split; [exact Hmove |]. split; [exact Hdestroy |].
  split; [reflexivity |]. split; [reflexivity |].
  split; [reflexivity |]. split; [reflexivity |].
  split; [reflexivity |]. split; [reflexivity |].
  split; [reflexivity |]. split; [reflexivity |].
  split; [reflexivity |].
  split; [intros ->; split; [reflexivity |]; split; [reflexivity |];
          split; [reflexivity |]; eexists; repeat split |].
  split; [intros ->; reflexivity |].
  intros minGrow_ maxGrow_ Hmin Hmax. split; intros ->.
  - set (m0 := SetAllocStrategy minGrow_ maxGrow_
                 (mkMap (@elementBuffer.empty KVP) 0 0 false)).
    assert (W : wf m0) by apply buffer_empty_wf.
    assert (G : elementBuffer.spare (buffer m0) <> 0 \/ 0 < growBy m0)
      by (right; now apply growBy_pos).
    destruct (Insert_ok kvp W eq_refl G) as [m' H].
    exists m'. split; [assumption |].
    apply Insert_inv in H. destruct H as (_ & _ & _ & Hl & _).
    exact Hl.
  - set (m0 := SetAllocStrategy minGrow_ maxGrow_
                 (mkMap (@elementBuffer.empty KVP) 0 0 true)).
    assert (W : wf m0) by apply buffer_empty_wf.
    assert (G : elementBuffer.spare (buffer m0) <> 0 \/ 0 < growBy m0)
      by (right; now apply growBy_pos).
    destruct (InsertBulk_ok kvp W eq_refl G) as [m' H].
    exists m'. split; [assumption |].
    apply InsertBulk_inv in H. destruct H as (_ & m1 & _ & Hl & _).
    simpl in Hl. now destruct (_ >? _) in Hl.
Qed.
End OwnershipMore.

(** ** Lookups after a bulk load *)
Section BulkMore.
Context {KEY VALUE : Type} {KO : KeyOrder KEY} {SO : StdSort KEY VALUE}.

Local Abbreviation KVP := (KeyValuePair KEY VALUE).
Local Abbreviation M := (Map KEY VALUE).



End BulkMore.

(** ** The mode protocol, [Clear] and repeated [InsertUnique] *)
Section ProtocolMore.
Context {KEY VALUE : Type} {KO : KeyOrder KEY} {SO : StdSort KEY VALUE}.

Local Abbreviation KVP := (KeyValuePair KEY VALUE).
Local Abbreviation M := (Map KEY VALUE).

(** X20: the two modes alternate.  [BeginBulk] is a contract violation
    exactly in Bulk mode, [EndBulk] exactly in Normal mode, and
    [InsertBulk] is a contract violation in Normal mode.  [BeginBulk]
    changes nothing but the mode, and the [EndBulk] that follows it leaves
    a sorted rearrangement of the live range, in the same buffer, in
    Normal mode. *)
Theorem bulk_mode_protocol (m : M) (kvp : KVP) :
  (BeginBulk m = None <-> inBulkMode m = true) /\
  (EndBulk m = None <-> inBulkMode m = false) /\
  (inBulkMode m = false -> InsertBulk kvp m = None) /\
  (forall m1, BeginBulk m = Some m1 ->
     inBulkMode m1 = true /\ buffer m1 = buffer m /\
     minGrow m1 = minGrow m /\ maxGrow m1 = maxGrow m /\
     BeginBulk m1 = None) /\
  (forall m2, EndBulk m = Some m2 ->
     inBulkMode m2 = false /\ EndBulk m2 = None /\
     sorted (live m2) /\ Permutation (live m) (live m2) /\
     Capacity m2 = Capacity m /\
     elementBuffer.frontSpare (buffer m2) = elementBuffer.frontSpare (buffer m)).
Proof.
  unfold BeginBulk, EndBulk, InsertBulk.
  destruct (inBulkMode m) eqn:B.
  - split; [split; reflexivity |]. split; [split; discriminate |].
    split; [discriminate |]. split; [discriminate |].
    intros m2 [= <-]. unfold live, Capacity. simpl.
    split; [reflexivity |]. split; [reflexivity |].
    split; [apply std_sort_sorted |]. split; [apply std_sort_perm |].
    split; reflexivity.
  - split; [split; discriminate |]. split; [split; reflexivity |].
    split; [reflexivity |]. split; [| discriminate].
    intros m1 [= <-]. simpl. auto.
Qed.

(** X21: [Clear()] makes no check of the mode: in either mode it empties
    the map and keeps the capacity, the growth policy and the mode.
    Afterwards the next insertions that fit the mode, up to as many as
    the capacity, all complete without a reallocation ([Insert] in Normal
    mode, [InsertBulk] in Bulk mode); right after [Clear()] in Normal
    mode no key is found. *)
Theorem Clear_then_inserts (m : M) :
  wf m ->
  Size (Clear m) = 0 /\ Empty (Clear m) = true /\ live (Clear m) = [] /\
  Capacity (Clear m) = Capacity m /\ wf (Clear m) /\
  inBulkMode (Clear m) = inBulkMode m /\
  minGrow (Clear m) = minGrow m /\ maxGrow (Clear m) = maxGrow m /\
  (inBulkMode m = false ->
   (forall k, Contains k (Clear m) = Some false /\
              FindIndex k (Clear m) = Some InvalidIndex /\
              lookup k (Clear m) = None) /\
   forall ps : list KVP,
     Z.of_nat (length ps) <= Capacity m ->
     exists m2,
       insert_all ps (Clear m) = Some m2 /\
       Capacity m2 = Capacity m /\
       Size m2 = Z.of_nat (length ps)) /\
  (inBulkMode m = true ->
   forall ps : list KVP,
     Z.of_nat (length ps) <= Capacity m ->
     exists m2,
       each InsertBulk ps (Clear m) = Some m2 /\
       Capacity m2 = Capacity m /\
       Size m2 = Z.of_nat (length ps)).
Proof.
  intros W. pose proof (buffer_wf_capacity W) as Hc.
  pose proof (buffer_size_nonneg (buffer m)) as Hs.
  assert (W' : wf (Clear m)).
  { unfold wf, elementBuffer.wf, elementBuffer.backSpare, elementBuffer.size,
      Clear, elementBuffer.clear. simpl. rewrite shiftr_1. lia. }
  assert (Sp : elementBuffer.spare (buffer (Clear m)) = Capacity m).
  { rewrite spare_Capacity_Size. unfold Capacity, Size, Clear. simpl.
    unfold elementBuffer.size. simpl. lia. }
  split; [reflexivity |]. split; [reflexivity |]. split; [reflexivity |].
  split; [reflexivity |]. split; [assumption |]. split; [reflexivity |].
  split; [reflexivity |]. split; [reflexivity |]. split.
  - intros B. split.
    + intros k. unfold Contains, FindIndex, lookup, Clear. simpl. rewrite B.
      repeat split.
    + intros ps Hn.
      destruct (@insert_all_with_spare _ _ _ ps (Clear m) W' B)
        as (m2 & H & Hc2 & Hs2); [rewrite Sp; assumption |].
      exists m2. split; [assumption |]. split; [exact Hc2 |].
      rewrite Hs2. reflexivity.
  - intros B ps Hn.
    destruct (@each_InsertBulk_with_spare _ _ ps (Clear m) W' B)
      as (m2 & H & Hc2 & Hs2); [rewrite Sp; assumption |].
    exists m2. split; [assumption |]. split; [exact Hc2 |].
    rewrite Hs2. reflexivity.
Qed.

End ProtocolMore.

(** ** The properties above on [Map<int, String>] *)

Open Scope string_scope.

Lemma lookup_spec_witness :
  let m : Map Z string :=
    mkMap (elementBuffer.mk 4 0
             [mkKVP 1 "z"; mkKVP 1 "a"; mkKVP 3 "c"; mkKVP 5 "e"])
          4 16 false in
  (inBulkMode m = false /\ sorted (live m)) /\
  lookup 1 m = Some "z" /\ lookup 2 m = None /\ Contains 2 m = Some false.
Proof.
  intros m.
  assert (S0 : sorted (live m)) by sorted_list.
  split; [at_hand |].
  destruct (@lookup_spec Z string _ 1 m eq_refl S0) as (H1 & _).
  destruct (@lookup_spec Z string _ 2 m eq_refl S0) as (_ & H2 & H3).
  split; [exact H1 |].
  split; [apply H2; reflexivity | apply H3; apply H2; reflexivity].
Defined.




Lemma FindIndex_accessors_witness :
  let m : Map Z string :=
    mkMap (elementBuffer.mk 4 0
             [mkKVP 1 "z"; mkKVP 1 "a"; mkKVP 3 "c"; mkKVP 5 "e"])
          4 16 false in
  inBulkMode m = false /\
  FindIndex 3 m = Some 2 /\ KeyAtIndex 2 m = Some 3 /\
  ValueAtIndex 2 m = lookup 3 m.
Proof.
  intros m. split; [reflexivity |].
  destruct (@FindIndex_accessors Z string _ 3 m eq_refl) as (H & _).
  destruct (H 2 eq_refl ltac:(discriminate)) as (K & v & V & L).
  split; [reflexivity |]. split; [exact K |]. now rewrite V, L.
Defined.

Lemma Erase_other_keys_witness :
  let m : Map Z string :=
    mkMap (elementBuffer.mk 4 0
             [mkKVP 1 "z"; mkKVP 1 "a"; mkKVP 3 "c"; mkKVP 5 "e"])
          4 16 false in
  (inBulkMode m = false /\ sorted (live m)) /\
  exists m', Erase 1 m = Some m' /\ lookup 1 m' = None /\
             lookup 3 m' = Some "c" /\ Size m' = 2.
Proof.
  intros m.
  assert (S0 : sorted (live m)) by sorted_list.
  split; [at_hand |].
  destruct (@Erase_other_keys Z string _ 1 m eq_refl S0)
    as (m' & H & L1 & Ho & Sz).
  destruct (Ho 3 ltac:(discriminate)) as (L3 & _).
  exists m'. split; [exact H |]. split; [exact L1 |].
  split; [rewrite L3; reflexivity |].
  change (Size m' + 2 = 4) in Sz. lia.
Defined.

Lemma EraseIndex_FindIndex_witness :
  let m : Map Z string :=
    mkMap (elementBuffer.mk 4 0
             [mkKVP 1 "z"; mkKVP 1 "a"; mkKVP 3 "c"; mkKVP 5 "e"])
          4 16 false in
  (inBulkMode m = false /\ sorted (live m) /\ has_key 1 (live m) = true) /\
  exists i m', FindIndex 1 m = Some i /\ EraseIndex i m = Some m' /\
               sorted (live m') /\ Size m' = 3.
Proof.
  intros m.
  assert (S0 : sorted (live m)) by sorted_list.
  split; [at_hand |].
  destruct (@EraseIndex_FindIndex Z string _ 1 m eq_refl S0 eq_refl)
    as (i & m' & F & E & Hs & _ & _ & Sz & _).
  exists i, m'. split; [exact F |]. split; [exact E |].
  split; [exact Hs | exact Sz].
Defined.

Lemma FindDuplicate_spec_witness :
  let m : Map Z string :=
    mkMap (elementBuffer.mk 4 0
             [mkKVP 1 "z"; mkKVP 1 "a"; mkKVP 3 "c"; mkKVP 5 "e"])
          4 16 false in
  inBulkMode m = false /\
  exists j, FindDuplicate 0 m = Some (Z.of_nat j) /\ dup_at (live m) j.
Proof.
  intros m. split; [reflexivity |].
  destruct (@FindDuplicate_spec Z string _ 0%nat m eq_refl)
    as [(j & H & _ & D & _) | (H & _)].
  - exists j. split; [exact H | exact D].
  - vm_compute in H. discriminate.
Defined.

Lemma FindDuplicate_NoDup_witness :
  let m : Map Z string :=
    mkMap (elementBuffer.mk 4 0 [mkKVP 1 "a"; mkKVP 2 "b"; mkKVP 3 "c"])
          4 16 false in
  (inBulkMode m = false /\ sorted (live m)) /\
  FindDuplicate 0 m = Some InvalidIndex /\ NoDup (map (@key _ _) (live m)).
Proof.
  intros m.
  assert (S0 : sorted (live m)) by sorted_list.
  split; [at_hand |].
  destruct (@FindDuplicate_NoDup Z string _ m eq_refl S0) as [H _].
  split; [reflexivity | apply H; reflexivity].
Defined.

Lemma InsertUnique_no_duplicates_witness :
  let cs := [CallInsertUnique 3 "c"; CallInsertUnique 1 "a";
             CallInsertUnique 3 "q"; CallErase 1; CallInsertUnique 5 "e"] in
  forallb is_unique_call cs = true /\
  Forall (fun m : Map Z string =>
            NoDup (map (@key _ _) (live m)) /\
            FindDuplicate 0 m = Some InvalidIndex)
         (run cs (Map_new 4 16)).
Proof.
  intros cs. split; [reflexivity |].
  exact (@InsertUnique_no_duplicates Z string _ 4 16 cs eq_refl).
Defined.

Lemma Reserve_then_inserts_witness :
  let ps := [mkKVP 5 "e"; mkKVP 1 "a"; mkKVP 3 "c"] in
  let m : Map Z string := Map_new 0 0 in
  (wf m /\ INT32_MIN <= 3 <= INT32_MAX /\ Capacity m <= INT32_MAX) /\
  exists m1 m2, Reserve 3 m = Some m1 /\ Capacity m1 = 3 /\
                insert_all ps m1 = Some m2 /\
                Capacity m2 = 3 /\ Size m2 = 3.
Proof.
  intros ps m.
  assert (W : wf m) by wf_buffer.
  assert (N : INT32_MIN <= 3 <= INT32_MAX)
    by (split; vm_compute; discriminate).
  assert (C : Capacity m <= INT32_MAX) by (vm_compute; discriminate).
  split; [at_hand |].
  destruct (@Reserve_then_inserts Z string _ 3 m W N C) as [_ Hfit].
  destruct (Hfit ltac:(vm_compute; discriminate))
    as (m1 & R & C1 & _ & _ & _ & _ & _ & _ & Hnormal & _).
  destruct (Hnormal eq_refl ps ltac:(vm_compute; discriminate))
    as (m2 & I & C2 & S2).
  exists m1, m2. split; [exact R |]. split; [exact C1 |].
  split; [exact I |]. split; [rewrite C2; exact C1 | exact S2].
Defined.

(** The 32-bit sum of [Reserve]: on a one-element map of capacity 4,
    [Reserve(2147483647)] wraps and leaves the map as it is. *)
Example Reserve_wraps :
  let m : Map Z string :=
    mkMap (elementBuffer.mk 4 2 [mkKVP 1 "a"]) 4 16 false in
  Reserve 2147483647 m = Some m.
Proof. reflexivity. Qed.

Lemma Trim_spec_witness :
  let m : Map Z string :=
    mkMap (elementBuffer.mk 4 2 [mkKVP 1 "a"]) 4 16 false in
  wf m /\
  exists m', Trim m = Some m' /\ live m' = [mkKVP 1 "a"] /\
             Capacity m' = 1 /\ Trim m' = Some m'.
Proof.
  intros m.
  assert (W : wf m) by wf_buffer.
  split; [exact W |].
  destruct (@Trim_spec Z string m W) as (m' & H & L & C & _ & _ & _ & _ & _ & T).
  exists m'. split; [exact H |]. split; [exact L |].
  split; [exact C | exact T].
Defined.

Lemma copy_assignment_witness :
  let a : Map Z string :=
    mkMap (elementBuffer.mk 4 1 [mkKVP 1 "a"; mkKVP 3 "c"]) 4 16 false in
  let b : Map Z string := Map_new 8 8 in
  (1%nat <> 0%nat /\ nth_error [a; b] 1 = Some b /\
   nth_error [a; b] 0 = Some a) /\
  exists s' c, assign_copy 1 0 [a; b] = Some s' /\
               nth_error s' 1 = Some c /\ nth_error s' 0 = Some a /\
               live c = live a /\ Capacity c = 2 /\ minGrow c = 4.
Proof.
  intros a b.
  assert (N : 1%nat <> 0%nat) by discriminate.
  split; [at_hand |].
  destruct (@copy_assignment Z string 1%nat 0%nat [a; b] b a N eq_refl eq_refl)
    as (s' & c & H & Hc & Ho & L & C & _ & _ & Mn & _).
  exists s', c. split; [exact H |]. split; [exact Hc |].
  split; [rewrite Ho by discriminate; reflexivity |].
  split; [exact L |]. split; [exact C | exact Mn].
Defined.

Lemma move_assignment_witness :
  let a : Map Z string :=
    mkMap (elementBuffer.mk 4 1 [mkKVP 1 "a"; mkKVP 3 "c"]) 4 16 false in
  let b : Map Z string := Map_new 8 8 in
  (1%nat <> 0%nat /\ nth_error [a; b] 1 = Some b /\
   nth_error [a; b] 0 = Some a) /\
  assign_move 1 0 [a; b] = Some [Map_new 0 0; a].
Proof.
  intros a b.
  assert (N : 1%nat <> 0%nat) by discriminate.
  split; [at_hand |].
  destruct (@move_assignment Z string 1%nat 0%nat [a; b] b a N eq_refl eq_refl)
    as (s' & H & _).
  rewrite H. vm_compute in H. injection H as <-. reflexivity.
Defined.


Lemma Clear_then_inserts_witness :
  let ps := [mkKVP 7 "g"; mkKVP 2 "b"] in
  let m : Map Z string :=
    mkMap (elementBuffer.mk 4 0
             [mkKVP 1 "z"; mkKVP 1 "a"; mkKVP 3 "c"; mkKVP 5 "e"])
          0 0 true in
  wf m /\
  Size (Clear m) = 0 /\ inBulkMode (Clear m) = true /\
  exists m2, each InsertBulk ps (Clear m) = Some m2 /\
             Capacity m2 = 4 /\ Size m2 = 2.
Proof.
  intros ps m.
  assert (W : wf m) by wf_buffer.
  split; [exact W |].
  destruct (@Clear_then_inserts Z string _ m W)
    as (Sz & _ & _ & _ & _ & B & _ & _ & _ & Hbulk).
  split; [exact Sz |]. split; [exact B |].
  destruct (Hbulk eq_refl ps ltac:(vm_compute; discriminate))
    as (m2 & H & C & S2).
  exists m2. split; [exact H |]. split; [exact C | exact S2].
Defined.

(** [moved_from_rejects_inserts] on a destroyed map that was in Bulk
    mode. *)
Lemma moved_from_rejects_inserts_witness :
  let r : Map Z string :=
    mkMap (elementBuffer.mk 4 1 [mkKVP 1 "a"; mkKVP 3 "c"]) 4 16 true in
  (destroy r = snd (move r) \/ destroy r = destroy r) /\
  inBulkMode (destroy r) = true /\ grow (destroy r) = None /\
  InsertBulk (mkKVP 2 "b") (destroy r) = None /\
  exists m', InsertBulk (mkKVP 2 "b") (SetAllocStrategy 4 16 (destroy r))
             = Some m' /\ live m' = [mkKVP 2 "b"].
Proof.
  intros r.
  assert (D : destroy r = snd (move r) \/ destroy r = destroy r)
    by (right; reflexivity).
  split; [exact D |].
  destruct (@moved_from_rejects_inserts Z string _ r (mkKVP 2 "b")
              (destroy r) D)
    as (_ & Hd & _ & _ & _ & _ & _ & _ & G & _ & _ & _ & Hb & Hrev).
  split; [exact (Hd eq_refl) |]. split; [exact G |].
  split; [exact (Hb eq_refl) |].
  destruct (Hrev 4 16 ltac:(lia) ltac:(lia)) as [_ Hbulk].
  exact (Hbulk eq_refl).
Defined.

